(** * sqler-cli: the similarity oracle and the [dedupe] command

    A shallow embedding of [src/sqler_cli/cli.py] (functions [_auto_tag],
    [_find_similar], [remember], [tags_add], [update], [dedupe]) and of
    [src/sqler_cli/models.py] (class [Memory]).

    Conventions.
    - A Python [str] is the list of its Unicode code points.
    - A Python [int] is a [Z]; a [float] BM25 score or threshold is a
      rational: the code only compares scores with [<=].
    - A [datetime] is the number of microseconds since [datetime.min].
    - A Python [set] is a [gset]; its iteration order ([list(all_tags)]) is
      the order of [elements], which, as in Python, is fixed but unspecified.
    - The document store behind [Memory] (package [sqler]) is not part of
      the repository: the database is a finite map from ids to records and
      [Memory.search_ranked] is a parameter of the development. *)

From Stdlib Require Import QArith.
From stdpp Require Import gmap list sorting strings.

Local Open Scope Z_scope.
Set Warnings "-clear-no-such-hyp".

(** ** Python strings *)

Abbreviation str := (list N).

(** Code points of an ASCII literal. *)
Definition py (s : string) : str :=
  Ascii.N_of_ascii <$> String.list_ascii_of_string s.
Arguments py s%_string.

(** The characters [str.split()] treats as separators ([str.isspace]). *)
Definition isspace (c : N) : bool :=
  ((9 <=? c) && (c <=? 13) || (28 <=? c) && (c <=? 32)
   || (c =? 133) || (c =? 160) || (c =? 5760)
   || (8192 <=? c) && (c <=? 8202)
   || (c =? 8232) || (c =? 8233) || (c =? 8239) || (c =? 8287)
   || (c =? 12288))%N.

(** [s.split()]: maximal runs of non-space characters, [word] being the
    run under construction. *)
Fixpoint split_from (word : str) (s : str) : list str :=
  match s with
  | [] => match word with [] => [] | _ => [word] end
  | c :: s' =>
      if isspace c then
        match word with
        | [] => split_from [] s'
        | _ => word :: split_from [] s'
        end
      else split_from (word ++ [c]) s'
  end.

Definition split (s : str) : list str := split_from [] s.

(** [sep.join(words)] *)
Fixpoint join (sep : str) (words : list str) : str :=
  match words with
  | [] => []
  | [w] => w
  | w :: ws => w ++ sep ++ join sep ws
  end.

(** ** models.py: the [Memory] record *)

Abbreviation datetime := N.

(** [datetime.min] *)
Definition datetime_min : datetime := 0%N.

(** A persisted [Memory]: every record that [Memory.query().all()],
    [Memory.from_id] or [Memory.search_ranked] hands to the commands has its
    [_id] assigned. *)
Record Memory := mkMemory {
  _id : Z;
  content : str;
  tags : list str;
  context : option str;
  source : str;
  session_id : option str;
  supersedes : option Z;
  see_also : list Z;
  source_url : option str;
  source_file : option str;
  importance : Z;
  created_at : option datetime;
  updated_at : option datetime
}.

(** [memory.tags = ts] *)
Definition set_tags (ts : list str) (m : Memory) : Memory :=
  mkMemory (_id m) (content m) ts (context m) (source m) (session_id m)
    (supersedes m) (see_also m) (source_url m) (source_file m) (importance m)
    (created_at m) (updated_at m).

(** [memory.content = c] *)
Definition set_content (c : str) (m : Memory) : Memory :=
  mkMemory (_id m) c (tags m) (context m) (source m) (session_id m)
    (supersedes m) (see_also m) (source_url m) (source_file m) (importance m)
    (created_at m) (updated_at m).

Definition set_updated_at (t : option datetime) (m : Memory) : Memory :=
  mkMemory (_id m) (content m) (tags m) (context m) (source m) (session_id m)
    (supersedes m) (see_also m) (source_url m) (source_file m) (importance m)
    (created_at m) t.

(** ** The document store *)

(** Modelled from the spec: [SQLerModel.save] on a record that already has
    an id (package [sqler], outside the repository). Section 6: "upsert;
    assigns id and created_at on first save, always refreshes updated_at".
    The Python object is stamped in place; the stamped record is returned
    with the new database. *)
Definition save (now : datetime) (m : Memory) (db : gmap Z Memory)
  : Memory * gmap Z Memory :=
  let m' := set_updated_at (Some now) m in
  (m', <[_id m := m']> db).

(** Modelled from the spec: [SQLerModel.delete] (package [sqler]).
    Section 6: "permanent removal". *)
Definition delete_memory (m : Memory) (db : gmap Z Memory) : gmap Z Memory :=
  delete (_id m) db.

(** Modelled: the id the store gives to a new record. By the spec
    (section 3) the first save "assigns id"; neither the spec nor the
    repository says which. The model takes the least id above every id
    present, which is what a fresh database does. A store that never hands
    out the id of a deleted record again can give a larger id after a
    deletion; like the model, it gives an id above every id present, and
    that is all the general theorems use of it. *)
Definition next_id (db : gmap Z Memory) : Z :=
  1 + map_fold (λ i _ acc, Z.max i acc) 0 db.

(** Primary-key order on the rows of the table. *)
Definition id_le (a b : Z * Memory) : Prop := a.1 ≤ b.1.

#[global] Instance id_le_dec : RelDecision id_le.
Proof. intros a b. unfold id_le. apply _. Defined.

(** Modelled from the spec: [Memory.query().all()] (package [sqler]).
    Section 6: "unranked full scan, natural/primary-key order assumed". *)
Definition query_all (db : gmap Z Memory) : list Memory :=
  (merge_sort id_le (map_to_list db)).*2.

(** Modelled from the spec: [Memory.from_id] (package [sqler]). *)
Definition from_id (db : gmap Z Memory) (memory_id : Z) : option Memory :=
  db !! memory_id.

(** ** What a command does besides returning *)

(** Outcome of a call into the store that may raise. *)
Inductive outcome (A : Type) : Type :=
  | Returned (a : A)
  | Raised (e : str).
Arguments Returned {A} a.
Arguments Raised {A} e.

(** [SearchResult]: [result.model], [result.score]. *)
Record SearchResult := mkResult { model : Memory; score : Q }.

(** Lines written with [typer.echo] by [dedupe]; their layout is left to
    the rendering. *)
Inductive line : Type :=
  | NotEnough                       (* "Not enough memories to deduplicate." *)
  | NoDuplicates                    (* "No duplicates found." *)
  | Found (n : nat)                 (* "Found {n} duplicate group(s):\n" *)
  | GroupHeader (i : nat)           (* "Group {i}:" *)
  | MemberLine (mem : Memory)       (* "  [{id}] {preview}{tags} ({created})" *)
  | Blank
  | MergedInto (keeper_id : Z) (deleted : nat)
  | MergedTotal (n : nat).          (* "Merged {n} duplicate(s) total." *)

(** The calls a command makes, in program order: on the oracle
    ([_find_similar]), on the store ([Memory.search_ranked], [save],
    [delete]) and on the terminal. *)
Inductive event : Type :=
  | FindSimilar (memory : Memory) (limit : Z) (threshold : Q)
  | SearchRanked (query : str) (limit : Z)
  | Save (m : Memory)
  | Delete (m : Memory)
  | Confirm (i : nat)
  | Echo (l : line).

(** ** cli.py: [_find_similar] *)

(** The [for result in results] loop of [_find_similar]; [similar] is the
    list built so far. *)
Fixpoint scan_results (memory : Memory) (limit : Z) (threshold : Q)
    (results : list SearchResult) (similar : list (Memory * Q))
  : list (Memory * Q) :=
  match results with
  | [] => similar
  | result :: rest =>
      if (_id (model result) =? _id memory) then
        scan_results memory limit threshold rest similar
      else
        let similar :=
          if Qle_bool (score result) threshold
          then similar ++ [(model result, score result)]
          else similar in
        if (limit <=? Z.of_nat (length similar)) then similar
        else scan_results memory limit threshold rest similar
  end.

(** [_find_similar(memory, limit, threshold)], with the searches it issued. *)
Definition _find_similar
    (search_ranked : str → Z → outcome (list SearchResult))
    (memory : Memory) (limit : Z) (threshold : Q)
  : list (Memory * Q) * list event :=
  let words := take 10 (split (content memory)) in
  match words with
  | [] => ([], [])
  | _ =>
      let query := join (py " OR ") words in
      match search_ranked query (limit + 1) with
      | Raised _ => ([], [SearchRanked query (limit + 1)])
      | Returned results =>
          (scan_results memory limit threshold results [],
           [SearchRanked query (limit + 1)])
      end
  end.

(** ** cli.py: [dedupe], the group builder (lines 1303-1323) *)

(** State of the [for memory in all_memories] loop; [searches] records the
    oracle queries made so far and the searches they issued. *)
Record builder := mkBuilder {
  seen_ids : gset Z;
  duplicate_groups : list (list Memory);
  searches : list event
}.

(** Lines 1316-1319: one neighbour of the seed. *)
Definition add_neighbor (acc : list Memory * gset Z) (sim : Memory * Q)
  : list Memory * gset Z :=
  let '(group, seen) := acc in
  let sim_mem := sim.1 in
  if decide (_id sim_mem ∈ seen) then acc
  else (group ++ [sim_mem], {[_id sim_mem]} ∪ seen).

(** One iteration of the loop, for the seed [memory]. *)
Definition group_step
    (search_ranked : str → Z → outcome (list SearchResult))
    (threshold : Q) (b : builder) (memory : Memory) : builder :=
  if decide (_id memory ∈ seen_ids b) then b
  else
    let '(similar, evs) := _find_similar search_ranked memory 10 threshold in
    let evs := FindSimilar memory 10 threshold :: evs in
    match similar with
    | [] => mkBuilder (seen_ids b) (duplicate_groups b) (searches b ++ evs)
    | _ =>
        let '(group, seen) :=
          foldl add_neighbor ([memory], seen_ids b) similar in
        if (1 <? length group)%nat then
          mkBuilder ({[_id memory]} ∪ seen) (duplicate_groups b ++ [group])
            (searches b ++ evs)
        else mkBuilder seen (duplicate_groups b) (searches b ++ evs)
    end.

Definition builder_init : builder := mkBuilder ∅ [] [].

Definition build_groups
    (search_ranked : str → Z → outcome (list SearchResult))
    (threshold : Q) (all_memories : list Memory) : builder :=
  foldl (group_step search_ranked threshold) builder_init all_memories.

(** ** cli.py: [dedupe], the merge (lines 1353-1373) *)

(** [m.created_at or datetime.min] *)
Definition sort_key (m : Memory) : datetime :=
  default datetime_min (created_at m).

(** [group.sort(key=..., reverse=True)]: Python's sort is stable, also
    under [reverse=True]; a stable sort is determined by its key order, so
    insertion from the right gives the same list. *)
Fixpoint insert_newest_first (m : Memory) (sorted : list Memory)
  : list Memory :=
  match sorted with
  | [] => [m]
  | x :: rest =>
      if (sort_key m <? sort_key x)%N then x :: insert_newest_first m rest
      else m :: sorted
  end.

Definition sort_newest_first (group : list Memory) : list Memory :=
  foldr insert_newest_first [] group.

(** [all_tags = set(keeper.tags); for mem in group[1:]: all_tags.update(mem.tags)] *)
Definition collect_tags (keeper : Memory) (rest : list Memory) : gset str :=
  foldl (λ all_tags mem, all_tags ∪ list_to_set (tags mem))
        (list_to_set (tags keeper)) rest.

(** The body of [if should_merge:]: the database afterwards, the calls
    made, the saved keeper and [len(group) - 1]. An empty group would raise
    [IndexError] at [group[0]]; the builder never emits one. *)
Definition merge_group (now : datetime) (group : list Memory)
    (db : gmap Z Memory)
  : gmap Z Memory * list event * option Memory * Z :=
  match sort_newest_first group with
  | [] => (db, [], None, Z.of_nat (length group) - 1)
  | keeper :: rest =>
      let all_tags := collect_tags keeper rest in
      let keeper := set_tags (elements all_tags) keeper in
      let '(keeper, db) := save now keeper db in
      let db := foldl (λ db mem, delete_memory mem db) db rest in
      (db, Save keeper :: (Delete <$> rest), Some keeper,
       Z.of_nat (length group) - 1)
  end.

(** The record a merge writes for [keeper]: its tags replaced by the
    collected ones, then stamped by [save]. *)
Definition merged_keeper (now : datetime) (keeper : Memory)
    (rest : list Memory) : Memory :=
  set_updated_at (Some now)
    (set_tags (elements (collect_tags keeper rest)) keeper).

(** State of the [for i, group in enumerate(duplicate_groups, 1)] loop. *)
Record progress := mkProgress {
  db_now : gmap Z Memory;
  log : list event;
  merged_count : Z
}.

(** Lines 1336-1343. *)
Definition show_group (quiet : bool) (i : nat) (group : list Memory)
  : list event :=
  if quiet then []
  else Echo (GroupHeader i) :: ((λ mem, Echo (MemberLine mem)) <$> group)
       ++ [Echo Blank].

(** Lines 1349-1351: [should_merge] for group [i]; the prompt is shown only
    when neither [--auto] nor [--quiet] is given. *)
Definition should_merge (confirm : nat → bool) (auto quiet : bool) (i : nat)
  : bool :=
  if negb auto && negb quiet then confirm i else auto.

(** One iteration; [confirm i] is the answer given to
    [typer.confirm("Merge this group (keep newest)?")] for group [i] and
    [now i] the time of that group's [save]. *)
Definition process_group (confirm : nat → bool) (now : nat → datetime)
    (dry_run auto quiet : bool) (p : progress) (ig : nat * list Memory)
  : progress :=
  let '(i, group) := ig in
  let shown := show_group quiet i group in
  if dry_run then mkProgress (db_now p) (log p ++ shown) (merged_count p)
  else
    let asked := if negb auto && negb quiet then [Confirm i] else [] in
    if should_merge confirm auto quiet i then
      let '(db, evs, keeper, n) := merge_group (now i) group (db_now p) in
      let told :=
        match keeper with
        | Some keeper =>
            if quiet then []
            else [Echo (MergedInto (_id keeper) (length group - 1))]
        | None => []
        end in
      mkProgress db (log p ++ shown ++ asked ++ evs ++ told)
        (merged_count p + n)
    else mkProgress (db_now p) (log p ++ shown ++ asked) (merged_count p).

(** [enumerate(duplicate_groups, 1)] *)
Definition enumerate1 {A} (l : list A) : list (nat * A) :=
  zip (seq 1 (length l)) l.

(** What a run of the command leaves behind. *)
Record run := mkRun {
  final_db : gmap Z Memory;
  trace : list event;
  groups_found : list (list Memory);
  total_merged : Z
}.

(** [dedupe(dry_run, auto, threshold, quiet)] on the database [db];
    [search_ranked db] is [Memory.search_ranked] over that database. *)
Definition dedupe
    (search_ranked : gmap Z Memory → str → Z → outcome (list SearchResult))
    (confirm : nat → bool) (now : nat → datetime)
    (dry_run auto : bool) (threshold : Q) (quiet : bool)
    (db : gmap Z Memory) : run :=
  let all_memories := query_all db in
  if (length all_memories <? 2)%nat then
    mkRun db (if quiet then [] else [Echo NotEnough]) [] 0
  else
    let b := build_groups (search_ranked db) threshold all_memories in
    match duplicate_groups b with
    | [] =>
        mkRun db (searches b ++ if quiet then [] else [Echo NoDuplicates])
          [] 0
    | _ =>
        let found :=
          if quiet then []
          else [Echo (Found (length (duplicate_groups b)))] in
        let p :=
          foldl (process_group confirm now dry_run auto quiet)
                (mkProgress db (searches b ++ found) 0)
                (enumerate1 (duplicate_groups b)) in
        let total :=
          if negb quiet && negb dry_run
          then [Echo (MergedTotal (Z.to_nat (merged_count p)))] else [] in
        mkRun (db_now p) (log p ++ total) (duplicate_groups b)
          (merged_count p)
    end.

(** ** cli.py: the commands that write [tags] *)

(** [AUTO_TAG_PATTERNS], each tag with the source of its pattern. *)
Definition AUTO_TAG_PATTERNS : list (str * str) :=
  [ (py "api", py "\b(api|endpoint|rest|graphql|http)\b");
    (py "database", py "\b(database|db|sql|postgres|sqlite|mongo)\b");
    (py "config", py "\b(config|configuration|settings|\.env|environment)\b");
    (py "auth", py "\b(auth|authentication|jwt|oauth|password|login)\b");
    (py "error", py "\b(error|exception|bug|fix|issue)\b");
    (py "security", py "\b(security|secret|key|credential|token)\b") ].

(** [_auto_tag(content)]; [re_search pattern text] stands for
    [re.compile(pattern, re.IGNORECASE).search(text)] being a match. *)
Definition _auto_tag (re_search : str → str → bool) (content : str)
  : list str :=
  (filter (λ tp, re_search tp.2 content = true) AUTO_TAG_PATTERNS).*1.

(** Lines 380-394 of [remember]: the tag list of the new memory;
    [add_them] is the answer to [typer.confirm("Add them?")]. *)
Definition remember_tags (re_search : str → str → bool) (add_them : bool)
    (content : str) (tag : option (list str))
    (auto_tag suggest_tags quiet : bool) : list str :=
  let tags := default [] tag in
  if auto_tag || suggest_tags then
    let suggested := _auto_tag re_search content in
    let suggested := filter (λ t, t ∉ tags) suggested in
    if suggest_tags && negb (bool_decide (suggested = [])) && negb quiet then
      if add_them then tags ++ suggested else tags
    else if auto_tag then tags ++ suggested
    else tags
  else tags.

(** Lines 396-408 of [remember]: [Memory(...)] followed by [memory.save()],
    the first save, which assigns the id and both timestamps. *)
Definition remember (re_search : str → str → bool) (add_them : bool)
    (now : datetime) (content : str) (tag : option (list str))
    (context : option str) (source : str) (session : option str)
    (auto_tag suggest_tags : bool) (supersedes : option Z)
    (see_also : option (list Z)) (source_url source_file : option str)
    (importance : Z) (quiet : bool) (db : gmap Z Memory)
  : Memory * gmap Z Memory :=
  let tags :=
    remember_tags re_search add_them content tag auto_tag suggest_tags quiet in
  let memory :=
    mkMemory (next_id db) content tags context source session supersedes
      (default [] see_also) source_url source_file importance
      (Some now) (Some now) in
  (memory, <[_id memory := memory]> db).

(** [tags_add(memory_id, tag)]; [None] is [typer.Exit(1)]. *)
Definition tags_add (now : datetime) (memory_id : Z) (tag : str)
    (db : gmap Z Memory) : option (gmap Z Memory) :=
  match from_id db memory_id with
  | None => None
  | Some memory =>
      if decide (tag ∈ tags memory) then Some db
      else Some (save now (set_tags (tags memory ++ [tag]) memory) db).2
  end.

(** Lines 1184-1193 of [update]: the record and the [changed] flag.
    [existing] is computed once, before the loop. *)
Definition update_tags (tag : option (list str)) (clear_tags : bool)
    (mc : Memory * bool) : Memory * bool :=
  let '(memory, changed) := mc in
  if clear_tags then (set_tags [] memory, true)
  else
    match tag with
    | Some ((_ :: _) as tag) =>
        let existing : gset str := list_to_set (tags memory) in
        foldl (λ (mc : Memory * bool) t,
                 if decide (t ∉ existing)
                 then (set_tags (tags mc.1 ++ [t]) mc.1, true)
                 else mc)
              (memory, changed) tag
    | _ => (memory, changed)
    end.

(** [update(memory_id, content, --tag, --clear-tags)] with the other
    options left out of the command line (their branches are skipped);
    [None] is [typer.Exit(1)]. *)
Definition update (now : datetime) (memory_id : Z) (content : option str)
    (tag : option (list str)) (clear_tags : bool) (db : gmap Z Memory)
  : option (gmap Z Memory) :=
  match from_id db memory_id with
  | None => None
  | Some memory =>
      let mc :=
        match content with
        | Some c => (set_content c memory, true)
        | None => (memory, false)
        end in
      let '(memory, changed) := update_tags tag clear_tags mc in
      if changed then Some (save now memory db).2 else Some db
  end.

(** One object of the JSON array read by [import_memories]; [None] is a
    missing key. *)
Record item := mkItem {
  item_content : str;
  item_tags : option (list str);
  item_context : option str;
  item_source : option str;
  item_session_id : option str;
  item_supersedes : option Z;
  item_see_also : option (list Z);
  item_source_url : option str;
  item_source_file : option str;
  item_importance : option Z
}.

(** The body of the [for item in data] loop of [import_memories]. *)
Definition import_item (now : datetime) (db : gmap Z Memory) (it : item)
  : gmap Z Memory :=
  let memory :=
    mkMemory (next_id db) (item_content it) (default [] (item_tags it))
      (item_context it) (default (py "imported") (item_source it))
      (item_session_id it) (item_supersedes it)
      (default [] (item_see_also it)) (item_source_url it)
      (item_source_file it) (default 3 (item_importance it))
      (Some now) (Some now) in
  <[_id memory := memory]> db.

(** ** The contract of the ranked search *)

(** [search_ranked] returns its results best first: scores never decrease
    along the list (lower is more relevant). *)
Definition ranked (results : list SearchResult) : Prop :=
  Sorted (λ a b, (score a <= score b)%Q) results.

(** [import_memories]: the loop over the parsed array; [now k] is the time
    of the [k]-th save. *)
Definition import_memories (now : nat → datetime) (data : list item)
    (db : gmap Z Memory) : gmap Z Memory :=
  foldl (λ db kit, import_item (now kit.1) db kit.2) db
        (zip (seq 1 (length data)) data).

(** ** Classes of calls *)

(** Calls that change the database. *)
Definition is_write (e : event) : bool :=
  match e with Save _ | Delete _ => true | _ => false end.

(** Calls on the oracle or on the ranked search. *)
Definition is_query (e : event) : bool :=
  match e with FindSimilar _ _ _ | SearchRanked _ _ => true | _ => false end.

(** The lines that show a group (lines 1337-1343). *)
Definition is_group_line (e : event) : bool :=
  match e with
  | Echo (GroupHeader _) | Echo (MemberLine _) | Echo Blank => true
  | _ => false
  end.

(** The groups as shown on the terminal. *)
Definition shown_groups (t : list event) : list event :=
  filter (λ e, is_group_line e = true) t.

(** What the loop over the groups shows. *)
Definition shown (quiet : bool) (igs : list (nat * list Memory))
  : list event :=
  concat ((λ ig, show_group quiet ig.1 ig.2) <$> igs).

(** The members a run is to report as merged: [len(group) - 1] for every
    group it merges. *)
Definition merged_members (confirm : nat → bool) (auto quiet : bool)
    (igs : list (nat * list Memory)) : Z :=
  foldr (λ ig acc,
           if should_merge confirm auto quiet ig.1
           then Z.of_nat (length ig.2) - 1 + acc else acc)
        0 igs.

(** ** The invariant of the group builder *)

(** The ids of the members of the emitted groups, in emission order. *)
Definition group_ids (groups : list (list Memory)) : list Z :=
  _id <$> concat groups.

(** What holds of the builder between two iterations: every emitted group
    has at least two members, no id occurs twice among the members of all
    emitted groups, and the visited set is the set of those ids. *)
Record builder_invariant (b : builder) : Prop := mkInvariant {
  inv_size : Forall (λ g : list Memory, (2 ≤ length g)%nat)
                    (duplicate_groups b);
  inv_nodup : NoDup (group_ids (duplicate_groups b));
  inv_seen : seen_ids b = list_to_set (group_ids (duplicate_groups b))
}.

(** ** Sample data *)

(** A stored note with the given id, content, tags and creation time. *)
Definition note (i : Z) (c : string) (ts : list string) (t : datetime)
  : Memory :=
  mkMemory i (py c) (py <$> ts) None (py "user") None None [] None None 3
    (Some t) (Some t).

Definition probe : Memory :=
  note 1 "API key stored in env file" ["old-tag"] 10%N.
Definition twin : Memory :=
  note 2 "API key stored in environment file" ["new-tag"] 20%N.
Definition other : Memory :=
  note 3 "Completely unrelated note about databases" [] 30%N.

(** A ranked search answering from a fixed ranking: its first [limit]
    entries. *)
Definition search_in (ranking : list SearchResult) (query : str) (limit : Z)
  : outcome (list SearchResult) :=
  Returned (take (Z.to_nat limit) ranking).

(** A search that ranks the probe first and its twin second. *)
Definition search_twin : str → Z → outcome (list SearchResult) :=
  search_in [mkResult probe (-9 # 1); mkResult twin (-6 # 1)].

(** A search that ranks the twin above the probe. *)
Definition search_twin_first : str → Z → outcome (list SearchResult) :=
  search_in [mkResult twin (-9 # 1); mkResult probe (-6 # 1)].

(** A search that always fails. *)
Definition search_down (query : str) (limit : Z)
  : outcome (list SearchResult) :=
  Raised (py "fts5: syntax error").

(** An answer that is not in rank order. *)
Definition search_unranked : str → Z → outcome (list SearchResult) :=
  search_in [mkResult twin (-1 # 1); mkResult other (-10 # 1)].

(** A search under which [other] has no qualifying neighbour at threshold
    [-3] while [twin] has [other] as one. *)
Definition search_pull : str → Z → outcome (list SearchResult) :=
  search_in [mkResult other (-9 # 1); mkResult twin (-1 # 1)].

(** A database of three notes, two of them near-duplicates, and its ranked
    search. *)
Definition sample_db : gmap Z Memory :=
  list_to_map [(1, probe); (2, twin); (3, other)].

Definition sample_search (db : gmap Z Memory) : str → Z
  → outcome (list SearchResult) := search_twin.

(** ** The oracle, as the scan without early exit *)

(** The pairs of the results that are not the probe and whose score is
    within the threshold, in the order of the answer. *)
Definition qualifying (memory : Memory) (threshold : Q)
    (results : list SearchResult) : list (Memory * Q) :=
  (λ r, (model r, score r)) <$>
    filter (λ r, _id (model r) ≠ _id memory
                 ∧ Qle_bool (score r) threshold = true) results.

(** ** The shape of a group *)

(** A group as the builder makes it from the seeds [all_memories]: a seed
    followed by at most ten of the neighbours the oracle returned for it. *)
Definition single_hop_group
    (search_ranked : str → Z → outcome (list SearchResult))
    (threshold : Q) (all_memories : list Memory) (group : list Memory)
  : Prop :=
  ∃ seed neighbours,
    group = seed :: neighbours
    ∧ seed ∈ all_memories
    ∧ (length neighbours ≤ 10)%nat
    ∧ ∀ m, m ∈ neighbours →
        ∃ sc, (m, sc) ∈ (_find_similar search_ranked seed 10 threshold).1.

(** ** cli.py: [tags rm] and the whole of [update] *)

(** [tags_remove(memory_id, tag)]; [None] is [typer.Exit(1)]. *)
Definition tags_remove (now : datetime) (memory_id : Z) (tag : str)
    (db : gmap Z Memory) : option (gmap Z Memory) :=
  match from_id db memory_id with
  | None => None
  | Some memory =>
      if decide (tag ∉ tags memory) then Some db
      else
        Some (save now (set_tags (filter (λ t, t ≠ tag) (tags memory)) memory)
                db).2
  end.

Definition set_context (c : option str) (m : Memory) : Memory :=
  mkMemory (_id m) (content m) (tags m) c (source m) (session_id m)
    (supersedes m) (see_also m) (source_url m) (source_file m) (importance m)
    (created_at m) (updated_at m).

Definition set_session_id (s : option str) (m : Memory) : Memory :=
  mkMemory (_id m) (content m) (tags m) (context m) (source m) s
    (supersedes m) (see_also m) (source_url m) (source_file m) (importance m)
    (created_at m) (updated_at m).

Definition set_supersedes (s : option Z) (m : Memory) : Memory :=
  mkMemory (_id m) (content m) (tags m) (context m) (source m) (session_id m)
    s (see_also m) (source_url m) (source_file m) (importance m)
    (created_at m) (updated_at m).

Definition set_see_also (l : list Z) (m : Memory) : Memory :=
  mkMemory (_id m) (content m) (tags m) (context m) (source m) (session_id m)
    (supersedes m) l (source_url m) (source_file m) (importance m)
    (created_at m) (updated_at m).

Definition set_source_url (u : option str) (m : Memory) : Memory :=
  mkMemory (_id m) (content m) (tags m) (context m) (source m) (session_id m)
    (supersedes m) (see_also m) u (source_file m) (importance m)
    (created_at m) (updated_at m).

Definition set_source_file (f : option str) (m : Memory) : Memory :=
  mkMemory (_id m) (content m) (tags m) (context m) (source m) (session_id m)
    (supersedes m) (see_also m) (source_url m) f (importance m)
    (created_at m) (updated_at m).

Definition set_importance (i : Z) (m : Memory) : Memory :=
  mkMemory (_id m) (content m) (tags m) (context m) (source m) (session_id m)
    (supersedes m) (see_also m) (source_url m) (source_file m) i
    (created_at m) (updated_at m).

(** The options of [update]; [None] is an option left off the command
    line. *)
Record update_options := mkUpdateOptions {
  opt_content : option str;
  opt_tag : option (list str);
  opt_context : option str;
  opt_clear_tags : bool;
  opt_session : option str;
  opt_supersedes : option Z;
  opt_see_also : option (list Z);
  opt_source_url : option str;
  opt_source_file : option str;
  opt_importance : option Z
}.

(** [if value is not None: memory.field = value; changed = True] *)
Definition assign_if_given {A} (value : option A) (set : A → Memory → Memory)
    (mc : Memory * bool) : Memory * bool :=
  match value with
  | Some v => (set v mc.1, true)
  | None => mc
  end.

(** Lines 1207-1213 of [update]; as for the tags, [existing] is computed
    once. *)
Definition update_see_also (see_also_opt : option (list Z))
    (mc : Memory * bool) : Memory * bool :=
  match see_also_opt with
  | Some ((_ :: _) as sids) =>
      let existing : gset Z := list_to_set (see_also mc.1) in
      foldl (λ (mc : Memory * bool) sid,
               if decide (sid ∉ existing)
               then (set_see_also (see_also mc.1 ++ [sid]) mc.1, true)
               else mc)
            mc sids
  | _ => mc
  end.

(** Lines 1177-1225 of [update]: the record as edited and the [changed]
    flag. *)
Definition update_fields (o : update_options) (memory : Memory)
  : Memory * bool :=
  let mc := (memory, false) in
  let mc := assign_if_given (opt_content o) set_content mc in
  let mc := update_tags (opt_tag o) (opt_clear_tags o) mc in
  let mc := assign_if_given (opt_context o) (λ c, set_context (Some c)) mc in
  let mc :=
    assign_if_given (opt_session o) (λ s, set_session_id (Some s)) mc in
  let mc :=
    assign_if_given (opt_supersedes o) (λ s, set_supersedes (Some s)) mc in
  let mc := update_see_also (opt_see_also o) mc in
  let mc :=
    assign_if_given (opt_source_url o) (λ u, set_source_url (Some u)) mc in
  let mc :=
    assign_if_given (opt_source_file o) (λ f, set_source_file (Some f)) mc in
  assign_if_given (opt_importance o) set_importance mc.

(** [update(memory_id, ...)] with all its options; [None] is
    [typer.Exit(1)]. The record is saved only when [changed]. *)
Definition update_command (now : datetime) (memory_id : Z)
    (o : update_options) (db : gmap Z Memory) : option (gmap Z Memory) :=
  match from_id db memory_id with
  | None => None
  | Some memory =>
      let '(memory, changed) := update_fields o memory in
      if changed then Some (save now memory db).2 else Some db
  end.

(** A database whose records carry the id they are stored under, as every
    database written through [save] is. *)
Definition consistent (db : gmap Z Memory) : Prop :=
  ∀ i m, db !! i = Some m → _id m = i.

(** What makes [update] save: an option that assigns, [--clear-tags], a
    [--tag] value the memory does not have, or a [--see-also] id it does
    not have. *)
Definition update_requested (o : update_options) (memory : Memory) : Prop :=
  is_Some (opt_content o)
  ∨ opt_clear_tags o = true
  ∨ (∃ t, t ∈ default [] (opt_tag o) ∧ t ∉ tags memory)
  ∨ is_Some (opt_context o)
  ∨ is_Some (opt_session o)
  ∨ is_Some (opt_supersedes o)
  ∨ (∃ s, s ∈ default [] (opt_see_also o) ∧ s ∉ see_also memory)
  ∨ is_Some (opt_source_url o)
  ∨ is_Some (opt_source_file o)
  ∨ is_Some (opt_importance o).

(** The tags [update] leaves on a memory. *)
Definition updated_tags (o : update_options) (memory : Memory) : list str :=
  if opt_clear_tags o then []
  else tags memory
       ++ filter (λ t, t ∉ tags memory) (default [] (opt_tag o)).

(** The fields no option of [update] assigns, with the two lists it only
    appends to. *)
Definition kept_fields (m : Memory)
  : Z * option datetime * str * option datetime :=
  (_id m, created_at m, source m, updated_at m).

(** ** cli.py: [forget] *)

(** How [forget] ends: [typer.Exit(1)], [typer.Abort] after a declined
    prompt, or a normal return with the database it leaves and the records
    it deleted. *)
Inductive forget_outcome : Type :=
  | ForgetExit
  | ForgetAborted
  | ForgetDone (db : gmap Z Memory) (deleted : list Memory).

(** [forget(memory_id, tag, confirm)]; [answer] is the reply to the
    prompt of the bulk delete. *)
Definition forget (answer : bool) (memory_id : option Z) (tag : option str)
    (confirm : bool) (db : gmap Z Memory) : forget_outcome :=
  match memory_id, tag with
  | None, None => ForgetExit
  | Some memory_id, _ =>
      match from_id db memory_id with
      | None => ForgetExit
      | Some memory => ForgetDone (delete_memory memory db) [memory]
      end
  | None, Some tag =>
      let memories := query_all db in
      let to_delete := filter (λ m, tag ∈ tags m) memories in
      match to_delete with
      | [] => ForgetDone db []
      | _ =>
          if negb confirm && negb answer then ForgetAborted
          else
            ForgetDone (foldl (λ db m, delete_memory m db) db to_delete)
              to_delete
      end
  end.

(** ** cli.py: [tags list] and [stats] *)

(** [tag_counts[t] = tag_counts.get(t, 0) + 1] over the tags of all
    memories (lines 755-759 and 929-932). *)
Definition tag_counts (memories : list Memory) : gmap str Z :=
  foldl (λ counts m,
           foldl (λ counts t, <[t := default 0 (counts !! t) + 1]> counts)
                 counts (tags m))
        ∅ memories.

(** What [tags list] prints: the counts as a JSON object, the "No tags
    found." line, or the table rows in the order of [sorted]. *)
Inductive tags_listing : Type :=
  | TagsJson (counts : gmap str Z)
  | NoTagsFound
  | TagsTable (rows : list (str * Z)).

(** [sorted(tag_counts.items())] orders the pairs; its order on strings is
    the rendering's. *)
Definition tags_list (sorted : list (str * Z) → list (str * Z))
    (output_json : bool) (db : gmap Z Memory) : tags_listing :=
  let counts := tag_counts (query_all db) in
  if output_json then TagsJson counts
  else if decide (counts = ∅) then NoTagsFound
  else TagsTable (sorted (map_to_list counts)).

(** The part of [stats_data] that does not come from the file system. *)
Record stats_data := mkStats {
  memory_count : nat;
  tag_count : nat;
  stats_tags : gmap str Z
}.

Definition stats (db : gmap Z Memory) : stats_data :=
  let memories := query_all db in
  let counts := tag_counts memories in
  mkStats (length memories) (size counts) counts.

(** How often [t] occurs among the tags of [memories]. *)
Definition occurrences (t : str) (memories : list Memory) : nat :=
  length (filter (λ x, x = t) (concat (tags <$> memories))).

(** ** cli.py: [recall] and [list] *)

(** [l[:limit]], a Python slice: a negative [limit] counts from the end. *)
Definition slice_to {A} (limit : Z) (l : list A) : list A :=
  if 0 <=? limit then take (Z.to_nat limit) l
  else take (length l - Z.to_nat (- limit)) l.

(** The three filters of [recall] (lines 545-552) and of [list] (lines
    647-654). An option is applied when it is truthy: a non-empty tag list,
    a non-empty session name, a non-zero importance. *)
Definition apply_filters (tag : option (list str)) (session : option str)
    (min_importance : option Z) (memories : list Memory) : list Memory :=
  let memories :=
    match tag with
    | Some ((_ :: _) as tag) =>
        filter (λ m, Exists (λ t, t ∈ tags m) tag) memories
    | _ => memories
    end in
  let memories :=
    match session with
    | Some ((_ :: _) as session) =>
        filter (λ m, session_id m = Some session) memories
    | _ => memories
    end in
  match min_importance with
  | Some min_importance =>
      if min_importance =? 0 then memories
      else filter (λ m, min_importance ≤ importance m) memories
  | None => memories
  end.

(** [{r.model._id: r.score for r in ranked_results}]: a later result
    replaces an earlier one with the same id. *)
Definition score_dict (ranked_results : list SearchResult) : gmap Z Q :=
  foldl (λ scores r, <[_id (model r) := score r]> scores) ∅ ranked_results.

(** [(-m.importance, scores.get(m._id, 0))] compared as Python compares
    tuples: [a] sorts strictly before [b]. *)
Definition boost_before (scores : gmap Z Q) (a b : Memory) : bool :=
  (importance b <? importance a)
  || ((importance a =? importance b)
      && negb (Qle_bool (default (0 # 1) (scores !! _id b))
                        (default (0 # 1) (scores !! _id a)))).

(** [memories.sort(key=...)], stable and ascending, by insertion from the
    right as for [sort_newest_first]. *)
Fixpoint insert_sorted {A} (before : A → A → bool) (x : A) (sorted : list A)
  : list A :=
  match sorted with
  | [] => [x]
  | y :: rest =>
      if before y x then y :: insert_sorted before x rest else x :: sorted
  end.

Definition sort_stable {A} (before : A → A → bool) (l : list A) : list A :=
  foldr (insert_sorted before) [] l.

(** [recall(query, ...)]: what it hands to [_output_memories], the
    memories and the scores. [search] is [Memory.search] and
    [search_ranked] is [Memory.search_ranked]; an exception of either is
    not caught. *)
Definition recall
    (search : str → Z → outcome (list Memory))
    (search_ranked : str → Z → outcome (list SearchResult))
    (query : str) (tag : option (list str)) (limit : Z)
    (show_score recent_first : bool) (session : option str)
    (min_importance : option Z) (boost_important : bool)
  : outcome (list Memory * option (gmap Z Q)) :=
  let fetched :=
    if show_score || boost_important then
      match search_ranked query (limit * 2) with
      | Raised e => Raised e
      | Returned ranked_results =>
          Returned (model <$> ranked_results,
                    Some (score_dict ranked_results))
      end
    else
      match search query (limit * 2) with
      | Raised e => Raised e
      | Returned memories => Returned (memories, None)
      end in
  match fetched with
  | Raised e => Raised e
  | Returned (memories, scores) =>
      let memories := apply_filters tag session min_importance memories in
      let memories :=
        if recent_first then sort_newest_first memories
        else
          match scores with
          | Some scores =>
              if boost_important && negb (bool_decide (scores = ∅))
              then sort_stable (boost_before scores) memories
              else memories
          | None => memories
          end in
      let memories := slice_to limit memories in
      Returned (memories, if show_score then scores else None)
  end.

(** [list_memories(...)]: the memories it hands to [_output_memories];
    [None] is [typer.Exit(1)] on a date [datetime.fromisoformat] rejects.
    [fromisoformat] stands for that parser and [fetch since n] for
    [query.filter(F("created_at") >= since).limit(n).all()], the filter
    being left off when there is no date. *)
Definition list_memories
    (fromisoformat : str → option datetime)
    (fetch : option datetime → Z → list Memory)
    (tag : option (list str)) (since : option str) (limit : Z)
    (session : option str) (min_importance : option Z)
  : option (list Memory) :=
  let since_dt :=
    match since with
    | Some ((_ :: _) as since) =>
        match fromisoformat since with
        | Some dt => Some (Some dt)
        | None => None
        end
    | _ => Some None
    end in
  match since_dt with
  | None => None
  | Some since_dt =>
      let memories := fetch since_dt (limit * 2) in
      let memories := apply_filters tag session min_importance memories in
      Some (slice_to limit memories)
  end.

(** A memory passes the filters given on the command line. *)
Definition passes_filters (tag : option (list str)) (session : option str)
    (min_importance : option Z) (m : Memory) : Prop :=
  (∀ t0 ts, tag = Some (t0 :: ts) → ∃ t, t ∈ t0 :: ts ∧ t ∈ tags m)
  ∧ (∀ c cs, session = Some (c :: cs) → session_id m = Some (c :: cs))
  ∧ (∀ n, min_importance = Some n → n ≠ 0 → n ≤ importance m).

(** The order of [recall --boost-important]: more important first and,
    among equally important memories, the better (lower) score first, a
    memory without a score counting as scored 0. *)
Definition boost_order (scores : gmap Z Q) (a b : Memory) : Prop :=
  importance b < importance a
  ∨ (importance a = importance b
     ∧ (default (0 # 1) (scores !! _id a)
        <= default (0 # 1) (scores !! _id b))%Q).

(** The memories the search of [recall] answered with. *)
Definition recall_candidates
    (search : str → Z → outcome (list Memory))
    (search_ranked : str → Z → outcome (list SearchResult))
    (query : str) (limit : Z) (show_score boost_important : bool)
    (candidates : list Memory) : Prop :=
  if show_score || boost_important
  then ∃ ranked_results,
         search_ranked query (limit * 2) = Returned ranked_results
         ∧ candidates = model <$> ranked_results
  else search query (limit * 2) = Returned candidates.

(** ** cli.py: [export] *)

(** One object of the array written by [export_memories]: the twelve keys
    of lines 979-992, the two dates before [isoformat]. *)
Record exported := mkExported {
  ex_content : str;
  ex_tags : list str;
  ex_context : option str;
  ex_source : str;
  ex_session_id : option str;
  ex_supersedes : option Z;
  ex_see_also : list Z;
  ex_source_url : option str;
  ex_source_file : option str;
  ex_importance : Z;
  ex_created_at : option datetime;
  ex_updated_at : option datetime
}.

(** [export_memories]: the [data] it serialises. *)
Definition export_memories (db : gmap Z Memory) : list exported :=
  (λ m, mkExported (content m) (tags m) (context m) (source m)
          (session_id m) (supersedes m) (see_also m) (source_url m)
          (source_file m) (importance m) (created_at m) (updated_at m))
    <$> query_all db.

(** An exported object as [import_memories] reads it back from the file:
    every key it looks up is there, [null] reading as [None]; the two
    dates are not looked up. *)
Definition item_of_exported (e : exported) : item :=
  mkItem (ex_content e) (Some (ex_tags e)) (ex_context e)
    (Some (ex_source e)) (ex_session_id e) (ex_supersedes e)
    (Some (ex_see_also e)) (ex_source_url e) (ex_source_file e)
    (Some (ex_importance e)).

(** ** cli.py: [_output_memories] *)

(** A row of the table: the id, the content cell, the tags cell, the score
    when there is a score column, and the creation time. *)
Record table_row := mkRow {
  row_id : Z;
  row_content : str;
  row_tags : str;
  row_score : option Q;
  row_created : option datetime
}.

(** What [_output_memories] prints: the ids, a JSON array (each memory
    with its score when it has one), the "No memories found." line, or a
    table with or without a score column. *)
Inductive printed : Type :=
  | PrintedIds (ids : list Z)
  | PrintedJson (items : list (Memory * option Q))
  | PrintedNoMemories
  | PrintedTable (score_column : bool) (rows : list table_row).

(** [m.content[:57] + "..." if len(m.content) > 60 else m.content] *)
Definition table_content (c : str) : str :=
  if (60 <? length c)%nat then take 57 c ++ py "..." else c.

(** [", ".join(m.tags) if m.tags else "-"] *)
Definition table_tags (ts : list str) : str :=
  match ts with
  | [] => py "-"
  | _ => join (py ", ") ts
  end.

(** [if scores:] an absent or empty dictionary is falsy. *)
Definition has_scores (scores : option (gmap Z Q)) : bool :=
  match scores with
  | Some sc => negb (bool_decide (sc = ∅))
  | None => false
  end.

Definition _output_memories (memories : list Memory) (as_json quiet : bool)
    (scores : option (gmap Z Q)) : printed :=
  if quiet then PrintedIds (_id <$> memories)
  else if as_json then
    PrintedJson ((λ m, (m, scores ≫= λ sc, sc !! _id m)) <$> memories)
  else
    match memories with
    | [] => PrintedNoMemories
    | _ =>
        PrintedTable (has_scores scores)
          ((λ m,
              mkRow (_id m) (table_content (content m))
                (table_tags (tags m))
                (if has_scores scores
                 then Some (default (0 # 1) (scores ≫= λ sc, sc !! _id m))
                 else None)
                (created_at m)) <$> memories)
    end.

(** ** config.py: [get_db_path] *)

(** The process environment [get_db_path] reads: the [SQLER_CLI_DB]
    variable, whether [.sqler-cli] exists in the working directory, and
    the global and local paths; [resolve p] stands for
    [Path(p).expanduser().resolve()]. Paths are strings. *)
Record environment := mkEnvironment {
  env_SQLER_CLI_DB : option str;
  env_has_local_db : bool;
  env_global_db_path : str;
  env_local_db_path : str
}.

Definition get_db_path (resolve : str → str) (env : environment)
    (override : option str) (use_global : bool) : str :=
  match override with
  | Some ((_ :: _) as override) => resolve override
  | _ =>
      match env_SQLER_CLI_DB env with
      | Some ((_ :: _) as env_path) => resolve env_path
      | _ =>
          if use_global then env_global_db_path env
          else if env_has_local_db env then env_local_db_path env
          else env_global_db_path env
      end
  end.

(** The record [import] stores for an item: [Memory(...)] saved for the
    first time under the id [i] at the time [t]. *)
Definition imported (i : Z) (t : datetime) (it : item) : Memory :=
  mkMemory i (item_content it) (default [] (item_tags it))
    (item_context it) (default (py "imported") (item_source it))
    (item_session_id it) (item_supersedes it)
    (default [] (item_see_also it)) (item_source_url it)
    (item_source_file it) (default 3 (item_importance it))
    (Some t) (Some t).

(** ** The prompts of a run *)

Definition is_prompt (e : event) : bool :=
  match e with Confirm _ => true | _ => false end.

(** The confirmation prompts a run showed, in order. *)
Definition prompts (t : list event) : list event :=
  filter (λ e, is_prompt e = true) t.

(** ** The ranked search over a database *)

(** [search_ranked] only answers with records of the database. *)
Definition answers_from (db : gmap Z Memory)
    (search_ranked : str → Z → outcome (list SearchResult)) : Prop :=
  ∀ query limit results r,
    search_ranked query limit = Returned results →
    r ∈ results → is_Some (db !! _id (model r)).

(** * Properties *)

(** ** [str.split] *)

Lemma split_from_nil (word s : str) :
  split_from word s = [] ↔ word = [] ∧ Forall (λ c, isspace c = true) s.
Proof.
  revert word. induction s as [|c s IH]; intros word; simpl.
  - destruct word; split; [done | done | done | by intros [? _]].
  - destruct (isspace c) eqn:Hc.
    + destruct word as [|w word].
      * rewrite IH. split.
        -- intros [_ Hs]. split; [done | by constructor].
        -- intros [_ Hs]. split; [done | by inversion Hs].
      * split; [done | by intros [? _]].
    + rewrite IH. split.
      * intros [Hw _]. by destruct word.
      * intros [_ Hs]. inversion Hs; congruence.
Qed.

Lemma split_nil (s : str) :
  split s = [] ↔ Forall (λ c, isspace c = true) s.
Proof.
  unfold split. rewrite split_from_nil.
  split; [by intros [_ ?] | by intros ?].
Qed.

(** ** The scan of the search results *)

Section scan.
Context (memory : Memory) (limit : Z) (threshold : Q).

(** The list under construction only grows. *)
Lemma scan_results_prefix results similar :
  similar `prefix_of` scan_results memory limit threshold results similar.
Proof.
  revert similar. induction results as [|r rest IH]; intros similar; simpl.
  - done.
  - destruct (_id (model r) =? _id memory); [apply IH|].
    destruct (Qle_bool (score r) threshold).
    + destruct (limit <=? _).
      * by apply prefix_app_r.
      * etrans; [|apply IH]. by apply prefix_app_r.
    + destruct (limit <=? _); [done | apply IH].
Qed.

(** A property of every pair appended by the scan holds of the result. *)
Lemma scan_results_Forall (P : Memory * Q → Prop) results similar :
  (∀ r, r ∈ results → _id (model r) ≠ _id memory →
        Qle_bool (score r) threshold = true → P (model r, score r)) →
  Forall P similar →
  Forall P (scan_results memory limit threshold results similar).
Proof.
  revert similar. induction results as [|r rest IH]; intros similar Hr Hs;
    simpl; [done|].
  assert (∀ r', r' ∈ rest → _id (model r') ≠ _id memory →
            Qle_bool (score r') threshold = true → P (model r', score r'))
    as Hrest by (intros; apply Hr; [by right|done..]).
  destruct (_id (model r) =? _id memory) eqn:Hid; [by apply IH|].
  apply Z.eqb_neq in Hid.
  destruct (Qle_bool (score r) threshold) eqn:Hsc.
  - assert (Forall P (similar ++ [(model r, score r)])) as Hs'.
    { apply Forall_app; split; [done|]. constructor; [|done].
      apply Hr; [by left|done..]. }
    destruct (limit <=? _); [done | by apply IH].
  - destruct (limit <=? _); [done | by apply IH].
Qed.

(** With a positive limit the scan stops at [limit] pairs. *)
Lemma scan_results_length results similar :
  1 ≤ limit → Z.of_nat (length similar) < limit →
  Z.of_nat (length (scan_results memory limit threshold results similar))
    ≤ limit.
Proof.
  intros Hlim. revert similar.
  induction results as [|r rest IH]; intros similar Hlen; simpl; [lia|].
  destruct (_id (model r) =? _id memory); [by apply IH|].
  destruct (Qle_bool (score r) threshold).
  - destruct (Z.leb_spec limit
                (Z.of_nat (length (similar ++ [(model r, score r)]))))
      as [Hge|Hlt].
    + rewrite length_app in *. simpl in *. lia.
    + by apply IH.
  - destruct (Z.leb_spec limit (Z.of_nat (length similar))); [lia|].
    by apply IH.
Qed.

(** Once every remaining score is above the threshold nothing is added. *)
Lemma scan_results_none_qualify results similar :
  Forall (λ r, Qle_bool (score r) threshold = false) results →
  scan_results memory limit threshold results similar = similar.
Proof.
  revert similar. induction results as [|r rest IH]; intros similar Hall;
    simpl; [done|].
  inversion Hall as [|? ? Hr Hrest]; subst.
  destruct (_id (model r) =? _id memory); [by apply IH|].
  rewrite Hr. destruct (limit <=? _); [done | by apply IH].
Qed.
End scan.

Lemma ranked_cons_inv r rest :
  ranked (r :: rest) →
  ranked rest ∧ Forall (λ r', (score r <= score r')%Q) rest.
Proof.
  intros H. apply Sorted_StronglySorted in H.
  - inversion H; subst. split; [|done]. by apply StronglySorted_Sorted.
  - intros a b c. apply Qle_trans.
Qed.

(** Raising the threshold can only add pairs when the results are ranked. *)
Lemma scan_results_mono memory limit (t1 t2 : Q) results similar :
  (t1 <= t2)%Q → ranked results →
  scan_results memory limit t1 results similar
    `prefix_of` scan_results memory limit t2 results similar.
Proof.
  intros Ht. revert similar.
  induction results as [|r rest IH]; intros similar Hrk; simpl; [done|].
  apply ranked_cons_inv in Hrk as [Hrk Hle].
  destruct (_id (model r) =? _id memory) eqn:Hid; [by apply IH|].
  destruct (Qle_bool (score r) t1) eqn:H1.
  - assert (Qle_bool (score r) t2 = true) as ->.
    { apply Qle_bool_iff. apply Qle_bool_iff in H1. by eapply Qle_trans. }
    destruct (limit <=? _); [done | by apply IH].
  - assert (Forall (λ r', Qle_bool (score r') t1 = false) rest) as Hnone.
    { eapply Forall_impl; [exact Hle|]. intros r' Hr'. simpl in Hr'.
      destruct (Qle_bool (score r') t1) eqn:H1'; [|done].
      apply Qle_bool_iff in H1'.
      assert (Qle_bool (score r) t1 = true); [|congruence].
      apply Qle_bool_iff. by eapply Qle_trans. }
    pose proof (scan_results_prefix memory limit t2 (r :: rest) similar)
      as Hpre.
    simpl in Hpre. rewrite Hid in Hpre.
    rewrite (scan_results_none_qualify memory limit t1 rest similar Hnone).
    assert (∀ b : bool, (if b then similar else similar) = similar) as ->
      by (by intros []).
    exact Hpre.
Qed.

(** ** The similarity oracle *)

Lemma take_split_nil (s : str) : take 10 (split s) = [] ↔ split s = [].
Proof. destruct (split s); simpl; split; done. Qed.

(** The shape of [_find_similar] when the probe has a token. *)
Lemma find_similar_tokens search memory limit threshold :
  split (content memory) ≠ [] →
  _find_similar search memory limit threshold =
    let query := join (py " OR ") (take 10 (split (content memory))) in
    (match search query (limit + 1) with
     | Raised _ => []
     | Returned results => scan_results memory limit threshold results []
     end, [SearchRanked query (limit + 1)]).
Proof.
  intros Hne. unfold _find_similar.
  destruct (take 10 (split (content memory))) as [|w ws] eqn:Hw.
  - by apply take_split_nil in Hw.
  - cbv zeta. by destruct (search _ _).
Qed.

(** The oracle never returns the probe, whatever the limit. *)
Lemma find_similar_not_self search memory limit threshold :
  Forall (λ p, _id p.1 ≠ _id memory)
         (_find_similar search memory limit threshold).1.
Proof.
  destruct (decide (split (content memory) = [])) as [He|Hne].
  - apply take_split_nil in He. unfold _find_similar. by rewrite He.
  - rewrite find_similar_tokens by done. cbv zeta. simpl.
    destruct (search _ _) as [results|e]; [|done].
    apply scan_results_Forall; [|done]. by intros r _ Hid _.
Qed.

(** Every returned score is within the threshold. *)
Lemma find_similar_within_threshold search memory limit threshold :
  Forall (λ p, (p.2 <= threshold)%Q)
         (_find_similar search memory limit threshold).1.
Proof.
  destruct (decide (split (content memory) = [])) as [He|Hne].
  - apply take_split_nil in He. unfold _find_similar. by rewrite He.
  - rewrite find_similar_tokens by done. cbv zeta. simpl.
    destruct (search _ _) as [results|e]; [|done].
    apply scan_results_Forall; [|done]. intros r _ _ Hsc.
    by apply Qle_bool_iff.
Qed.

(** C4, as amended. For a probe whose content has at least one token,
    [_find_similar] issues exactly one ranked search, for the first ten
    tokens joined with [" OR "] and for [limit + 1] results; no returned
    pair carries the probe's id; every returned score is at most the
    threshold; and, when [limit] is at least 1, at most [limit] pairs are
    returned. *)
Theorem find_similar_postcondition search memory limit threshold :
  split (content memory) ≠ [] →
  let query := join (py " OR ") (take 10 (split (content memory))) in
  let result := _find_similar search memory limit threshold in
  result.2 = [SearchRanked query (limit + 1)]
  ∧ Forall (λ p, _id p.1 ≠ _id memory) result.1
  ∧ Forall (λ p, (p.2 <= threshold)%Q) result.1
  ∧ (1 ≤ limit → Z.of_nat (length result.1) ≤ limit).
Proof.
  intros Hne query result. subst result.
  split; [|split; [apply find_similar_not_self|
                   split; [apply find_similar_within_threshold|]]].
  - by rewrite find_similar_tokens.
  - intros Hlim. rewrite find_similar_tokens by done. cbv zeta. simpl.
    destruct (search _ _) as [results|e]; simpl; [|lia].
    apply scan_results_length; simpl; lia.
Qed.

Lemma find_similar_postcondition_witness :
  split (content probe) ≠ []
  ∧ (_find_similar search_twin probe 3 (-5 # 1)).2
      = [SearchRanked (py "API OR key OR stored OR in OR env OR file") 4]
  ∧ Z.of_nat (length (_find_similar search_twin probe 3 (-5 # 1)).1) ≤ 3.
Proof.
  assert (split (content probe) ≠ []) as Hne by (vm_compute; discriminate).
  destruct (find_similar_postcondition search_twin probe 3 (-5 # 1) Hne)
    as (Hq & _ & _ & Hlen).
  split; [exact Hne|]. split; [exact Hq|]. apply Hlen. lia.
Defined.

(** C4 as stated fails for [limit = 0]: the length test follows the
    append, so the first qualifying result is returned before the loop
    stops. *)
Lemma find_similar_limit_zero_counterexample :
  split (content probe) ≠ []
  ∧ (_find_similar search_twin_first probe 0 (-5 # 1)).1 = [(twin, -9 # 1)]
  ∧ ¬ (Z.of_nat (length (_find_similar search_twin_first probe 0 (-5 # 1)).1)
       ≤ 0).
Proof.
  split; [vm_compute; discriminate|].
  split; [reflexivity|]. vm_compute. intros H. by apply H.
Qed.

(** C5. For a fixed probe, search and limit, and thresholds [t1 <= t2],
    every pair returned under [t1] is returned under [t2], the ranked
    search answering with its results in rank order. *)
Theorem find_similar_threshold_monotone search memory limit (t1 t2 : Q) :
  (t1 <= t2)%Q →
  (∀ query results, search query (limit + 1) = Returned results →
                    ranked results) →
  ∀ p, p ∈ (_find_similar search memory limit t1).1 →
       p ∈ (_find_similar search memory limit t2).1.
Proof.
  intros Ht Hrk p.
  destruct (decide (split (content memory) = [])) as [He|Hne].
  - unfold _find_similar. apply take_split_nil in He. by rewrite He.
  - rewrite !find_similar_tokens by done. cbv zeta. simpl.
    destruct (search _ _) as [results|e] eqn:Hs; [|done].
    intros Hp. eapply elem_of_prefix; [exact Hp|].
    apply scan_results_mono; [done|]. by eapply Hrk.
Qed.

Lemma find_similar_threshold_monotone_witness :
  (-5 # 1 <= -2 # 1)%Q
  ∧ (twin, -6 # 1) ∈ (_find_similar search_twin probe 3 (-2 # 1)).1.
Proof.
  assert (-5 # 1 <= -2 # 1)%Q as Ht by (vm_compute; discriminate).
  split; [exact Ht|].
  apply (find_similar_threshold_monotone search_twin probe 3 _ _ Ht).
  - intros query results [= <-]. unfold ranked. simpl.
    repeat constructor. vm_compute. discriminate.
  - vm_compute. left.
Defined.

(** The rank order is what monotonicity rests on: on a result list out of
    rank order, with [limit = 1], the stricter threshold returns a pair the
    looser one does not. *)
Example find_similar_unranked_not_monotone :
  (_find_similar search_unranked probe 1 (-5 # 1)).1 = [(other, -10 # 1)]
  ∧ (_find_similar search_unranked probe 1 (0 # 1)).1 = [(twin, -1 # 1)].
Proof. split; reflexivity. Qed.

(** C6. [_find_similar] returns the empty list when the probe's content is
    empty or all whitespace (no token, and then no search is issued), and
    when the ranked search raises: the exception stops in the oracle. *)
Theorem find_similar_absorbs_failure search memory limit threshold :
  Forall (λ c, isspace c = true) (content memory)
  ∨ (∃ e, search (join (py " OR ") (take 10 (split (content memory))))
                 (limit + 1) = Raised e) →
  (_find_similar search memory limit threshold).1 = []
  ∧ (Forall (λ c, isspace c = true) (content memory) →
     _find_similar search memory limit threshold = ([], [])).
Proof.
  intros H.
  assert (Forall (λ c, isspace c = true) (content memory) →
          _find_similar search memory limit threshold = ([], [])) as Hblank.
  { intros Hsp. apply split_nil in Hsp. apply take_split_nil in Hsp.
    unfold _find_similar. by rewrite Hsp. }
  split; [|exact Hblank].
  destruct H as [Hsp|[e He]].
  - by rewrite Hblank.
  - destruct (decide (split (content memory) = [])) as [Hnil|Hne].
    + apply split_nil in Hnil. by rewrite Hblank.
    + rewrite find_similar_tokens by done. cbv zeta. by rewrite He.
Qed.

Lemma find_similar_absorbs_failure_witness :
  (_find_similar search_twin (note 7 "  " [] 1%N) 10 (-3 # 1)).1 = []
  ∧ (_find_similar search_down probe 10 (-3 # 1)).1 = [].
Proof.
  split.
  - apply (find_similar_absorbs_failure search_twin (note 7 "  " [] 1%N)).
    left. vm_compute. repeat constructor.
  - apply (find_similar_absorbs_failure search_down probe).
    right. eexists. reflexivity.
Defined.

(** ** The group builder *)

Lemma group_ids_snoc groups (g : list Memory) :
  group_ids (groups ++ [g]) = group_ids groups ++ (_id <$> g).
Proof.
  unfold group_ids. rewrite concat_app, fmap_app. simpl.
  by rewrite app_nil_r.
Qed.

(** The inner loop appends neighbours with fresh, distinct ids and marks
    exactly those. *)
Lemma add_neighbors_spec (similar : list (Memory * Q)) group seen :
  ∃ added,
    foldl add_neighbor (group, seen) similar
      = (group ++ added, list_to_set (_id <$> added) ∪ seen)
    ∧ NoDup (_id <$> added)
    ∧ (∀ x, x ∈ _id <$> added → x ∉ seen)
    ∧ added ⊆ similar.*1.
Proof.
  revert group seen. induction similar as [|[m sc] similar IH];
    intros group seen; simpl.
  - exists []. rewrite app_nil_r. split; [f_equal; set_solver|].
    split; [constructor|]. split; [set_solver|done].
  - destruct (decide (_id m ∈ seen)) as [Hin|Hout].
    + destruct (IH group seen) as (added & -> & Hnd & Hfresh & Hsub).
      exists added. repeat split; try done. set_solver.
    + destruct (IH (group ++ [m]) ({[_id m]} ∪ seen))
        as (added & -> & Hnd & Hfresh & Hsub).
      exists (m :: added). rewrite <- app_assoc. simpl. split.
      { f_equal. set_solver. }
      split.
      { constructor; [|done]. intros Hm. apply (Hfresh _ Hm). set_solver. }
      split.
      { intros x [->|Hx]%elem_of_cons; [done|].
        specialize (Hfresh _ Hx). set_solver. }
      set_solver.
Qed.

(** One iteration preserves the invariant. *)
Lemma group_step_invariant search threshold b memory :
  builder_invariant b →
  builder_invariant (group_step search threshold b memory).
Proof.
  intros [Hsize Hnd Hseen]. unfold group_step.
  destruct (decide (_id memory ∈ seen_ids b)) as [Hin|Hout]; [done|].
  pose proof (find_similar_not_self search memory 10 threshold) as Hself.
  destruct (_find_similar search memory 10 threshold) as [similar evs].
  simpl in Hself.
  destruct similar as [|s0 similar']; [done|].
  set (similar := s0 :: similar') in *.
  destruct (add_neighbors_spec similar [memory] (seen_ids b))
    as (added & -> & Hnda & Hfresh & Hsub).
  assert (_id memory ∉ _id <$> added) as Hmem.
  { intros (m & Hm & Hin)%list_elem_of_fmap.
    apply Hsub in Hin. apply list_elem_of_fmap in Hin as ([m' sc] & -> & Hp).
    rewrite Forall_forall in Hself. by apply (Hself _ Hp). }
  destruct added as [|a added]; simpl.
  - constructor; simpl; [done..|]. rewrite Hseen. set_solver.
  - constructor; simpl.
    + apply Forall_app. split; [done|]. constructor; [simpl; lia|done].
    + rewrite group_ids_snoc. apply NoDup_app. split; [done|]. split.
      * intros x Hx Hx'.
        assert (x ∈ seen_ids b) as Hs by (rewrite Hseen; set_solver).
        apply elem_of_cons in Hx' as [->|Hx']; [done|].
        by apply (Hfresh x).
      * simpl. constructor; [exact Hmem | exact Hnda].
    + rewrite group_ids_snoc, list_to_set_app_L, <- Hseen. simpl. set_solver.
Qed.

Lemma builder_init_invariant : builder_invariant builder_init.
Proof. constructor; simpl; [done | constructor | done]. Qed.

Lemma foldl_group_step_invariant search threshold memories b :
  builder_invariant b →
  builder_invariant (foldl (group_step search threshold) b memories).
Proof.
  revert b. induction memories as [|m memories IH]; intros b Hb; simpl.
  - done.
  - apply IH. by apply group_step_invariant.
Qed.

Lemma group_ids_cons (g : list Memory) groups :
  group_ids (g :: groups) = (_id <$> g) ++ group_ids groups.
Proof. unfold group_ids. simpl. by rewrite fmap_app. Qed.

Lemma elem_of_group_ids x groups :
  x ∈ group_ids groups ↔ ∃ g, g ∈ groups ∧ x ∈ _id <$> g.
Proof.
  induction groups as [|g groups IH].
  - split; [by intros ?%elem_of_nil | by intros (g & ?%elem_of_nil & _)].
  - rewrite group_ids_cons, elem_of_app, IH. split.
    + intros [Hx|(g' & Hg' & Hx)].
      * exists g. split; [by left | done].
      * exists g'. split; [by right | done].
    + intros (g' & [->|Hg']%elem_of_cons & Hx); [by left|].
      right. by exists g'.
Qed.

(** Distinct ids over all groups: distinct inside each group, and no id
    shared by two groups. *)
Lemma group_ids_NoDup groups :
  NoDup (group_ids groups) →
  (∀ g, g ∈ groups → NoDup (_id <$> g))
  ∧ (∀ i j gi gj x,
       groups !! i = Some gi → groups !! j = Some gj →
       x ∈ _id <$> gi → x ∈ _id <$> gj → i = j).
Proof.
  induction groups as [|g groups IH]; intros Hnd.
  - split; [by intros g ?%elem_of_nil | by intros i j gi gj x ?].
  - rewrite group_ids_cons in Hnd.
    apply NoDup_app in Hnd as (Hg & Hdisj & Hrest).
    destruct (IH Hrest) as [IH1 IH2]. split.
    + intros g' [->|Hg']%elem_of_cons; [done | by apply IH1].
    + assert (∀ j gj x, groups !! j = Some gj → x ∈ _id <$> g →
                x ∈ _id <$> gj → False) as Hcross.
      { intros j gj x Hj Hx Hx'. apply (Hdisj x Hx).
        apply elem_of_group_ids. exists gj. split; [|done].
        by eapply list_elem_of_lookup_2. }
      intros [|i] [|j] gi gj x Hi Hj Hxi Hxj; simpl in *.
      * done.
      * injection Hi as <-. by destruct (Hcross j gj x).
      * injection Hj as <-. by destruct (Hcross i gi x).
      * f_equal. by eapply IH2.
Qed.

(** C7. After any number of iterations of the group-building loop, every
    emitted group has at least two members, no memory id occurs twice among
    the members of the emitted groups (so the members of a group are
    distinct and the groups are pairwise disjoint), and the visited set is
    exactly the set of ids of the members of the emitted groups. *)
Theorem group_builder_invariant search threshold all_memories (k : nat) :
  let b := foldl (group_step search threshold) builder_init
                 (take k all_memories) in
  Forall (λ g : list Memory, (2 ≤ length g)%nat ∧ NoDup (_id <$> g))
         (duplicate_groups b)
  ∧ (∀ i j gi gj x,
       duplicate_groups b !! i = Some gi → duplicate_groups b !! j = Some gj →
       x ∈ _id <$> gi → x ∈ _id <$> gj → i = j)
  ∧ NoDup (group_ids (duplicate_groups b))
  ∧ seen_ids b = list_to_set (group_ids (duplicate_groups b)).
Proof.
  intros b.
  assert (builder_invariant b) as [Hsize Hnd Hseen].
  { apply foldl_group_step_invariant, builder_init_invariant. }
  destruct (group_ids_NoDup _ Hnd) as [Hin Hcross].
  split; [|split; [exact Hcross | by split]].
  apply Forall_forall. intros g Hg. split.
  - rewrite Forall_forall in Hsize. by apply Hsize.
  - by apply Hin.
Qed.

(** Every neighbour offered to the inner loop is marked when it ends. *)
Lemma add_neighbors_marks (similar : list (Memory * Q)) group seen p :
  p ∈ similar → _id p.1 ∈ (foldl add_neighbor (group, seen) similar).2.
Proof.
  revert group seen. induction similar as [|p0 similar IH];
    intros group seen Hp; [by apply elem_of_nil in Hp|].
  apply elem_of_cons in Hp as [->|Hp]; simpl.
  - destruct p0 as [m sc]. simpl.
    destruct (decide (_id m ∈ seen)) as [Hin|Hout].
    + destruct (add_neighbors_spec similar group seen) as (added & -> & _).
      simpl. set_solver.
    + destruct (add_neighbors_spec similar (group ++ [m]) ({[_id m]} ∪ seen))
        as (added & -> & _).
      simpl. set_solver.
  - destruct (decide (_id p0.1 ∈ seen)); by apply IH.
Qed.

(** C8. A memory that the builder iterates and whose oracle query (limit
    10, the caller's threshold) returns no qualifying neighbour leaves the
    visited set and the emitted groups as they were: its id is not marked.
    So a later seed whose query returns it gets a group holding that id. *)
Theorem group_step_leaves_lonely_seed_unvisited search threshold b memory :
  _id memory ∉ seen_ids b →
  (_find_similar search memory 10 threshold).1 = [] →
  let b' := group_step search threshold b memory in
  seen_ids b' = seen_ids b
  ∧ duplicate_groups b' = duplicate_groups b
  ∧ (_id memory ∉ seen_ids b')
  ∧ (∀ seed sc,
       _id seed ∉ seen_ids b' →
       (memory, sc) ∈ (_find_similar search seed 10 threshold).1 →
       ∃ group,
         duplicate_groups (group_step search threshold b' seed)
           = duplicate_groups b' ++ [group]
         ∧ head group = Some seed
         ∧ _id memory ∈ _id <$> group).
Proof.
  intros Hout Hnone b'.
  assert (seen_ids b' = seen_ids b ∧ duplicate_groups b' = duplicate_groups b)
    as [Hseen Hgroups].
  { subst b'. unfold group_step.
    destruct (decide (_id memory ∈ seen_ids b)); [done|].
    destruct (_find_similar search memory 10 threshold) as [similar evs].
    simpl in Hnone. by subst similar. }
  split; [done|]. split; [done|]. split; [by rewrite Hseen|].
  intros seed sc Hseed Hin. unfold group_step.
  destruct (decide (_id seed ∈ seen_ids b')); [done|].
  destruct (_find_similar search seed 10 threshold) as [similar evs].
  simpl in Hin.
  destruct similar as [|s0 similar']; [by apply elem_of_nil in Hin|].
  set (similar := s0 :: similar') in *.
  pose proof (add_neighbors_marks similar [seed] (seen_ids b') _ Hin) as Hmark.
  destruct (add_neighbors_spec similar [seed] (seen_ids b'))
    as (added & Heq & _).
  rewrite Heq in Hmark |- *. simpl in Hmark.
  assert (_id memory ∈ _id <$> added) as Hadded.
  { apply elem_of_union in Hmark as [Hm|Hm].
    - by apply elem_of_list_to_set in Hm.
    - rewrite Hseen in Hm. done. }
  destruct added as [|a added]; [by apply elem_of_nil in Hadded|].
  simpl. exists (seed :: a :: added). split; [done|]. split; [done|].
  rewrite fmap_cons. by right.
Qed.

Lemma group_step_leaves_lonely_seed_unvisited_witness :
  let b' := group_step search_pull (-3 # 1) builder_init other in
  seen_ids b' = ∅
  ∧ ∃ group,
      duplicate_groups (group_step search_pull (-3 # 1) b' twin) = [group]
      ∧ head group = Some twin
      ∧ _id other ∈ _id <$> group.
Proof.
  intros b'. subst b'.
  destruct (group_step_leaves_lonely_seed_unvisited
              search_pull (-3 # 1) builder_init other)
    as (Hseen & Hgroups & _ & Hpull).
  - simpl. apply not_elem_of_empty.
  - reflexivity.
  - split; [exact Hseen|].
    destruct (Hpull twin (-9 # 1)) as (group & Hg & Hhd & Hin).
    + rewrite Hseen. simpl. apply not_elem_of_empty.
    + vm_compute. left.
    + exists group. rewrite Hgroups in Hg. by split.
Defined.

(** ** The merge: sorting newest first *)

Lemma insert_newest_first_perm m sorted :
  insert_newest_first m sorted ≡ₚ m :: sorted.
Proof.
  induction sorted as [|x rest IH]; simpl; [done|].
  destruct (sort_key m <? sort_key x)%N; [|done].
  rewrite IH. apply Permutation_swap.
Qed.

Lemma sort_newest_first_perm group : sort_newest_first group ≡ₚ group.
Proof.
  induction group as [|m group IH]; simpl; [done|].
  by rewrite insert_newest_first_perm, IH.
Qed.

Lemma sort_newest_first_nil group : sort_newest_first group = [] → group = [].
Proof.
  intros H. apply Permutation_nil_r. by rewrite <- H, sort_newest_first_perm.
Qed.

(** The head of the sorted group is the first member, in the original
    order, among those with the greatest key. *)
Lemma sort_newest_first_head group keeper rest :
  sort_newest_first group = keeper :: rest →
  ∃ pre post,
    group = pre ++ keeper :: post
    ∧ (∀ m, m ∈ pre → (sort_key m < sort_key keeper)%N)
    ∧ (∀ m, m ∈ post → (sort_key m ≤ sort_key keeper)%N).
Proof.
  revert keeper rest. induction group as [|m group IH]; intros keeper rest;
    simpl; [done|].
  destruct (sort_newest_first group) as [|k' rest'] eqn:Hs.
  - apply sort_newest_first_nil in Hs as ->. simpl. intros [= <- <-].
    exists [], []. split; [done|]. split; by intros ? ?%elem_of_nil.
  - destruct (IH k' rest' eq_refl) as (pre' & post' & -> & Hpre & Hpost).
    simpl. destruct (N.ltb_spec (sort_key m) (sort_key k')) as [Hlt|Hge].
    + intros [= <- <-]. exists (m :: pre'), post'. split; [done|].
      split; [|done]. intros x [->|Hx]%elem_of_cons; [done | by apply Hpre].
    + intros [= <- <-]. exists [], (pre' ++ k' :: post'). split; [done|].
      split; [by intros ? ?%elem_of_nil|].
      intros x [Hx|[->|Hx]%elem_of_cons]%elem_of_app.
      * specialize (Hpre x Hx). lia.
      * done.
      * specialize (Hpost x Hx). lia.
Qed.

(** ** The merge: tags *)

Lemma elem_of_collect_tags_foldl (t : str) (acc : gset str) rest :
  t ∈ foldl (λ all_tags mem, all_tags ∪ list_to_set (tags mem)) acc rest
  ↔ t ∈ acc ∨ ∃ m, m ∈ rest ∧ t ∈ tags m.
Proof.
  revert acc. induction rest as [|m rest IH]; intros acc; simpl.
  - split; [by left|]. intros [?|(m & ?%elem_of_nil & _)]; done.
  - rewrite IH, elem_of_union, elem_of_list_to_set. split.
    + intros [[Ht|Ht]|(m' & Hm' & Ht)].
      * by left.
      * right. exists m. split; [by left | done].
      * right. exists m'. split; [by right | done].
    + intros [Ht|(m' & [->|Hm']%elem_of_cons & Ht)].
      * left. by left.
      * left. by right.
      * right. by exists m'.
Qed.

Lemma elem_of_collect_tags (t : str) keeper rest :
  t ∈ collect_tags keeper rest ↔ ∃ m, m ∈ keeper :: rest ∧ t ∈ tags m.
Proof.
  unfold collect_tags.
  rewrite elem_of_collect_tags_foldl, elem_of_list_to_set. split.
  - intros [Ht|(m & Hm & Ht)].
    + exists keeper. split; [by left | done].
    + exists m. split; [by right | done].
  - intros (m & [->|Hm]%elem_of_cons & Ht); [by left|].
    right. by exists m.
Qed.

(** ** The merge: the database *)

Lemma foldl_delete_lookup rest (db : gmap Z Memory) x :
  foldl (λ db mem, delete_memory mem db) db rest !! x
  = if decide (x ∈ _id <$> rest) then None else db !! x.
Proof.
  revert db. induction rest as [|m rest IH]; intros db.
  - simpl. destruct (decide (x ∈ [])) as [Hin|_];
      [by apply elem_of_nil in Hin | done].
  - simpl foldl. rewrite IH. unfold delete_memory. rewrite fmap_cons.
    destruct (decide (x ∈ _id <$> rest)) as [Hin|Hout].
    + rewrite decide_True; [done | by right].
    + destruct (decide (x = _id m)) as [->|Hne].
      * rewrite decide_True by (by left). apply lookup_delete_eq.
      * rewrite decide_False.
        -- by apply lookup_delete_ne.
        -- intros [?|?]%elem_of_cons; done.
Qed.

Lemma merge_group_sorted now group db keeper rest :
  sort_newest_first group = keeper :: rest →
  merge_group now group db
  = (foldl (λ db mem, delete_memory mem db)
           (<[_id keeper := merged_keeper now keeper rest]> db) rest,
     Save (merged_keeper now keeper rest) :: (Delete <$> rest),
     Some (merged_keeper now keeper rest),
     Z.of_nat (length group) - 1).
Proof. unfold merge_group. by intros ->. Qed.

(** A merge touches no record outside the group. *)
Lemma merge_group_frame now group db x :
  x ∉ _id <$> group →
  (merge_group now group db).1.1.1 !! x = db !! x.
Proof.
  intros Hx. destruct (sort_newest_first group) as [|keeper rest] eqn:Hs.
  - unfold merge_group. by rewrite Hs.
  - rewrite (merge_group_sorted _ _ _ _ _ Hs). simpl.
    assert (x ∉ _id <$> (keeper :: rest)) as Hx'.
    { by rewrite <- Hs, sort_newest_first_perm. }
    rewrite fmap_cons, not_elem_of_cons in Hx'. destruct Hx' as [Hk Hr].
    rewrite foldl_delete_lookup, decide_False by done.
    by rewrite lookup_insert_ne.
Qed.

(** With distinct ids, a merge leaves the keeper's merged record and
    removes every other member. *)
Lemma merge_group_lookup now group db keeper rest :
  NoDup (_id <$> group) →
  sort_newest_first group = keeper :: rest →
  let db' := (merge_group now group db).1.1.1 in
  db' !! _id keeper = Some (merged_keeper now keeper rest)
  ∧ (∀ m, m ∈ rest → db' !! _id m = None).
Proof.
  intros Hnd Hs db'. subst db'.
  rewrite (merge_group_sorted _ _ _ _ _ Hs). simpl.
  assert (NoDup (_id <$> (keeper :: rest))) as Hnd'.
  { by rewrite <- Hs, sort_newest_first_perm. }
  rewrite fmap_cons in Hnd'. apply NoDup_cons in Hnd' as [Hk Hr]. split.
  - rewrite foldl_delete_lookup, decide_False by done.
    apply lookup_insert_eq.
  - intros m Hm. rewrite foldl_delete_lookup, decide_True; [done|].
    by apply list_elem_of_fmap_2.
Qed.

(** ** The loop over the groups *)

Lemma process_group_frame confirm now dry_run auto quiet p i group x :
  x ∉ _id <$> group →
  db_now (process_group confirm now dry_run auto quiet p (i, group)) !! x
  = db_now p !! x.
Proof.
  intros Hx. unfold process_group.
  destruct dry_run; [done|].
  destruct (should_merge confirm auto quiet i); [|done].
  pose proof (merge_group_frame (now i) group (db_now p) x Hx) as Hf.
  destruct (merge_group (now i) group (db_now p)) as [[[db' evs] k] n].
  by simpl in *.
Qed.

Lemma process_groups_frame confirm now dry_run auto quiet igs p x :
  (∀ ig, ig ∈ igs → x ∉ _id <$> ig.2) →
  db_now (foldl (process_group confirm now dry_run auto quiet) p igs) !! x
  = db_now p !! x.
Proof.
  revert p. induction igs as [|[i g] igs IH]; intros p Hx; simpl; [done|].
  rewrite IH.
  - apply process_group_frame. apply (Hx (i, g)). by left.
  - intros ig Hig. apply Hx. by right.
Qed.

Lemma process_group_merged confirm now auto quiet p i group :
  should_merge confirm auto quiet i = true →
  db_now (process_group confirm now false auto quiet p (i, group))
  = (merge_group (now i) group (db_now p)).1.1.1
  ∧ merged_count (process_group confirm now false auto quiet p (i, group))
    = merged_count p + (Z.of_nat (length group) - 1).
Proof.
  intros Hm. unfold process_group. rewrite Hm.
  assert ((merge_group (now i) group (db_now p)).2
          = Z.of_nat (length group) - 1) as Hn.
  { unfold merge_group. destruct (sort_newest_first group); [done|].
    by destruct (save _ _ _). }
  destruct (merge_group (now i) group (db_now p)) as [[[db' evs] k] n].
  simpl in *. by subst n.
Qed.

(** In a run that merges, the group at position [i] ends with its keeper's
    merged record in the database and every other member gone. *)
Lemma process_groups_outcome confirm now auto quiet igs p pre i group post
    keeper rest :
  NoDup (group_ids igs.*2) →
  igs = pre ++ (i, group) :: post →
  should_merge confirm auto quiet i = true →
  sort_newest_first group = keeper :: rest →
  let db' :=
    db_now (foldl (process_group confirm now false auto quiet) p igs) in
  db' !! _id keeper = Some (merged_keeper (now i) keeper rest)
  ∧ (∀ m, m ∈ rest → db' !! _id m = None).
Proof.
  intros Hnd -> Hm Hs db'. subst db'.
  rewrite foldl_app. cbn [foldl].
  set (p1 := foldl _ p pre).
  destruct (process_group_merged confirm now auto quiet p1 i group Hm)
    as [Hdb _].
  destruct (group_ids_NoDup _ Hnd) as [Hin Hcross].
  assert (NoDup (_id <$> group)) as Hg.
  { apply Hin. rewrite fmap_app, fmap_cons. simpl.
    apply elem_of_app. right. by left. }
  destruct (merge_group_lookup (now i) group (db_now p1) keeper rest Hg Hs)
    as [Hk Hr].
  assert (∀ x, x ∈ _id <$> group →
            ∀ ig, ig ∈ post → x ∉ _id <$> ig.2) as Hpost.
  { intros x Hx ig Hig Hx'.
    apply list_elem_of_lookup in Hig as [j Hj].
    assert ((pre ++ (i, group) :: post).*2 !! (length pre + S j)%nat
            = Some ig.2) as H2.
    { rewrite list_lookup_fmap, lookup_app_r by lia.
      replace (length pre + S j - length pre)%nat with (S j) by lia.
      simpl. by rewrite Hj. }
    assert ((pre ++ (i, group) :: post).*2 !! (length pre + 0)%nat
            = Some group) as H1.
    { rewrite list_lookup_fmap, lookup_app_r by lia.
      by replace (length pre + 0 - length pre)%nat with 0%nat by lia. }
    pose proof (Hcross _ _ _ _ x H1 H2 Hx Hx'). lia. }
  assert (∀ x, x ∈ _id <$> group → x ∈ _id <$> (keeper :: rest)) as Hmem.
  { intros x Hx. by rewrite <- Hs, sort_newest_first_perm. }
  assert (∀ x, x ∈ _id <$> (keeper :: rest) → x ∈ _id <$> group) as Hmem'.
  { intros x Hx. by rewrite <- Hs, sort_newest_first_perm in Hx. }
  split.
  - rewrite process_groups_frame.
    + by rewrite Hdb.
    + apply Hpost, Hmem'. rewrite fmap_cons. by left.
  - intros m Hin'. rewrite process_groups_frame.
    + rewrite Hdb. by apply Hr.
    + apply Hpost, Hmem'. rewrite fmap_cons. right.
      by apply list_elem_of_fmap_2.
Qed.

(** ** The command *)

Lemma enumerate1_snd {A} (l : list A) : (enumerate1 l).*2 = l.
Proof. unfold enumerate1. apply snd_zip. by rewrite length_seq. Qed.

Lemma enumerate1_lookup {A} (l : list A) i x :
  l !! i = Some x → enumerate1 l !! i = Some (S i, x).
Proof.
  intros Hi. unfold enumerate1. apply lookup_zip_with_Some.
  exists (S i), x. split; [done|]. split; [|done].
  apply lookup_seq. split; [done|]. by eapply lookup_lt_Some.
Qed.

(** A run that found a group went through both loops. *)
Lemma dedupe_found search confirm now dry_run auto threshold quiet db i g :
  groups_found (dedupe search confirm now dry_run auto threshold quiet db)
    !! i = Some g →
  let b := build_groups (search db) threshold (query_all db) in
  let found :=
    if quiet then [] else [Echo (Found (length (duplicate_groups b)))] in
  let p := foldl (process_group confirm now dry_run auto quiet)
                 (mkProgress db (searches b ++ found) 0)
                 (enumerate1 (duplicate_groups b)) in
  duplicate_groups b !! i = Some g
  ∧ final_db (dedupe search confirm now dry_run auto threshold quiet db)
    = db_now p.
Proof.
  intros Hi b found p. unfold dedupe in *.
  destruct (length (query_all db) <? 2)%nat; [done|].
  fold b in Hi |- *.
  destruct (duplicate_groups b) as [|g0 groups] eqn:Hb; [done|].
  simpl in Hi. split; [done|]. simpl. by subst p found.
Qed.

Lemma build_groups_invariant search threshold all_memories :
  builder_invariant (build_groups search threshold all_memories).
Proof. apply foldl_group_step_invariant, builder_init_invariant. Qed.

(** What a merged group looks like when the command returns. *)
Lemma dedupe_group_merged search confirm now auto threshold quiet db i group :
  let r := dedupe search confirm now false auto threshold quiet db in
  groups_found r !! i = Some group →
  should_merge confirm auto quiet (S i) = true →
  (2 ≤ length group)%nat
  ∧ NoDup (_id <$> group)
  ∧ ∃ keeper rest,
      sort_newest_first group = keeper :: rest
      ∧ final_db r !! _id keeper
        = Some (merged_keeper (now (S i)) keeper rest)
      ∧ (∀ m, m ∈ rest → final_db r !! _id m = None).
Proof.
  intros r Hi Hm. subst r.
  destruct (dedupe_found _ _ _ _ _ _ _ _ _ _ Hi) as [Hg ->].
  set (b := build_groups (search db) threshold (query_all db)) in *.
  destruct (build_groups_invariant (search db) threshold (query_all db))
    as [Hsize Hnd _].
  fold b in Hsize, Hnd.
  assert (group ∈ duplicate_groups b) as Hin
    by (by eapply list_elem_of_lookup_2).
  split; [by apply (proj1 (Forall_forall _ _) Hsize)|].
  split; [by apply (proj1 (group_ids_NoDup _ Hnd))|].
  destruct (sort_newest_first group) as [|keeper rest] eqn:Hs.
  { apply sort_newest_first_nil in Hs. subst group.
    pose proof (proj1 (Forall_forall _ _) Hsize _ Hin). simpl in *. lia. }
  exists keeper, rest. split; [done|].
  apply enumerate1_lookup in Hg.
  eapply process_groups_outcome; try done.
  - by rewrite enumerate1_snd.
  - symmetry. by apply take_drop_middle.
Qed.

(** The merged count of a run adds [len(group) - 1] per merged group. *)
Lemma process_groups_merged_count confirm now auto quiet igs p :
  merged_count (foldl (process_group confirm now false auto quiet) p igs)
  = merged_count p + merged_members confirm auto quiet igs.
Proof.
  revert p. induction igs as [|[i g] igs IH]; intros p; cbn [foldl].
  - simpl. lia.
  - rewrite IH. unfold merged_members. cbn [foldr fst snd].
    fold (merged_members confirm auto quiet igs).
    destruct (should_merge confirm auto quiet i) eqn:Hm.
    + destruct (process_group_merged confirm now auto quiet p i g Hm)
        as [_ ->]. lia.
    + unfold process_group. rewrite Hm. simpl. lia.
Qed.

Lemma dedupe_total_merged search confirm now auto threshold quiet db :
  let r := dedupe search confirm now false auto threshold quiet db in
  total_merged r
  = merged_members confirm auto quiet (enumerate1 (groups_found r)).
Proof.
  intros r. subst r. unfold dedupe.
  destruct (length (query_all db) <? 2)%nat; [done|].
  destruct (duplicate_groups _) as [|g0 groups] eqn:Hb; [done|].
  cbn [total_merged groups_found].
  by rewrite process_groups_merged_count.
Qed.

(** C1. When the command merges a group of [n] memories ([n >= 2]), exactly
    one member, the head of the sorted group, is still in the database when
    the command returns; the other [n - 1] members are gone, the merge
    having made one [save] and [n - 1] [delete] calls and added [n - 1] to
    the merged count, which in the end is the sum of [n - 1] over the
    merged groups; and the survivor's stored tags have no duplicate and
    are exactly the tags occurring in some member of the group. *)
Theorem dedupe_merge_conservation
    search confirm now auto threshold quiet db i group :
  let r := dedupe search confirm now false auto threshold quiet db in
  groups_found r !! i = Some group →
  should_merge confirm auto quiet (S i) = true →
  (2 ≤ length group)%nat
  ∧ ∃ keeper rest,
      sort_newest_first group = keeper :: rest
      ∧ keeper :: rest ≡ₚ group
      ∧ length rest = (length group - 1)%nat
      ∧ (∀ m, m ∈ group → is_Some (final_db r !! _id m) ↔ m = keeper)
      ∧ (∀ m, m ∈ rest → final_db r !! _id m = None)
      ∧ (∃ survivor,
           final_db r !! _id keeper = Some survivor
           ∧ NoDup (tags survivor)
           ∧ ∀ t, t ∈ tags survivor ↔ ∃ m, m ∈ group ∧ t ∈ tags m)
      ∧ (∀ t d p,
           (merge_group t group d).1.1.2
             = Save (merged_keeper t keeper rest) :: (Delete <$> rest)
           ∧ merged_count
               (process_group confirm now false auto quiet p (S i, group))
             = merged_count p + (Z.of_nat (length group) - 1))
      ∧ total_merged r
        = merged_members confirm auto quiet (enumerate1 (groups_found r)).
Proof.
  intros r Hi Hm.
  destruct (dedupe_group_merged _ _ _ _ _ _ _ _ _ Hi Hm)
    as (Hlen & Hnd & keeper & rest & Hs & Hk & Hr).
  fold r in Hk, Hr.
  assert (keeper :: rest ≡ₚ group) as Hperm
    by (rewrite <- Hs; apply sort_newest_first_perm).
  split; [done|]. exists keeper, rest.
  split; [done|]. split; [done|]. split.
  { apply Permutation_length in Hperm. simpl in Hperm. lia. }
  split.
  { intros m Hin. rewrite <- Hperm in Hin. split.
    - intros Hsome. apply elem_of_cons in Hin as [->|Hin]; [done|].
      rewrite (Hr _ Hin) in Hsome. by destruct Hsome.
    - intros ->. by rewrite Hk. }
  split; [done|]. split.
  { eexists. split; [exact Hk|]. simpl. split; [apply NoDup_elements|].
    intros t. rewrite elem_of_elements, elem_of_collect_tags.
    by setoid_rewrite Hperm. }
  split; [|apply dedupe_total_merged].
  intros t d p. split.
  - by rewrite (merge_group_sorted _ _ _ _ _ Hs).
  - by apply process_group_merged.
Qed.

Lemma dedupe_merge_conservation_witness :
  let r := dedupe sample_search (λ _, false) (λ _, 99%N) false true
                  (-3 # 1) false sample_db in
  groups_found r !! 0%nat = Some [probe; twin]
  ∧ final_db r !! 1 = None
  ∧ ∃ survivor,
      final_db r !! 2 = Some survivor
      ∧ ∀ t, t ∈ tags survivor ↔ ∃ m, m ∈ [probe; twin] ∧ t ∈ tags m.
Proof.
  intros r.
  assert (groups_found r !! 0%nat = Some [probe; twin]) as Hi
    by (vm_compute; reflexivity).
  assert (should_merge (λ _, false) true false 1 = true) as Hm
    by reflexivity.
  destruct (dedupe_merge_conservation sample_search (λ _, false) (λ _, 99%N)
              true (-3 # 1) false sample_db 0 [probe; twin] Hi Hm)
    as (_ & keeper & rest & Hs & _ & _ & _ & Hgone & Htags & _ & _).
  vm_compute in Hs. injection Hs as <- <-.
  split; [exact Hi|]. split.
  - apply (Hgone probe). left.
  - destruct Htags as (survivor & Hk & _ & Ht). by exists survivor.
Defined.

(** C2. When the command merges a group, the survivor is the member with
    the greatest creation time [created_at] (a member without one counting
    as created at [datetime.min]): every member before it in the group is
    strictly older and no member after it is newer, so that among members
    of the same greatest creation time the first in the group's order
    survives. It is the only member left in the database, and its stored
    record differs from the one in the group in [tags] and [updated_at]
    only: [_id], [created_at] and every other field are unchanged. *)
Theorem dedupe_survivor_identity
    search confirm now auto threshold quiet db i group :
  let r := dedupe search confirm now false auto threshold quiet db in
  groups_found r !! i = Some group →
  should_merge confirm auto quiet (S i) = true →
  ∃ keeper pre post,
    group = pre ++ keeper :: post
    ∧ (∀ m, m ∈ pre →
         (default datetime_min (created_at m)
          < default datetime_min (created_at keeper))%N)
    ∧ (∀ m, m ∈ post →
         (default datetime_min (created_at m)
          ≤ default datetime_min (created_at keeper))%N)
    ∧ (∀ m, m ∈ group → is_Some (final_db r !! _id m) ↔ m = keeper)
    ∧ ∃ survivor,
        final_db r !! _id keeper = Some survivor
        ∧ _id survivor = _id keeper
        ∧ created_at survivor = created_at keeper
        ∧ updated_at survivor = Some (now (S i))
        ∧ content survivor = content keeper
        ∧ context survivor = context keeper
        ∧ source survivor = source keeper
        ∧ session_id survivor = session_id keeper
        ∧ supersedes survivor = supersedes keeper
        ∧ see_also survivor = see_also keeper
        ∧ source_url survivor = source_url keeper
        ∧ source_file survivor = source_file keeper
        ∧ importance survivor = importance keeper.
Proof.
  intros r Hi Hm.
  destruct (dedupe_group_merged _ _ _ _ _ _ _ _ _ Hi Hm)
    as (Hlen & Hnd & keeper & rest & Hs & Hk & Hr).
  fold r in Hk, Hr.
  destruct (sort_newest_first_head _ _ _ Hs) as (pre & post & Hg & Hpre & Hpost).
  exists keeper, pre, post. split; [done|].
  split; [exact Hpre|]. split; [exact Hpost|].
  split.
  - intros m Hin. split.
    + intros Hsome.
      assert (m ∈ keeper :: rest) as Hin'
        by (by rewrite <- Hs, sort_newest_first_perm).
      apply elem_of_cons in Hin' as [->|Hin']; [done|].
      rewrite (Hr _ Hin') in Hsome. by destruct Hsome.
    + intros ->. by rewrite Hk.
  - eexists. split; [exact Hk|]. by repeat split.
Qed.

(** A run on the sample database: the group found is the older record 1
    followed by the newer record 2; record 2 survives with its creation
    time and record 1 is gone. *)
Lemma dedupe_survivor_identity_witness :
  let r := dedupe sample_search (λ _, false) (λ _, 99%N) false true
                  (-3 # 1) false sample_db in
  groups_found r !! 0%nat = Some [probe; twin]
  ∧ created_at probe = Some 10%N
  ∧ created_at twin = Some 20%N
  ∧ final_db r !! 1 = None
  ∧ ∃ survivor,
      final_db r !! 2 = Some survivor
      ∧ _id survivor = 2
      ∧ created_at survivor = Some 20%N
      ∧ content survivor = content twin.
Proof.
  intros r.
  assert (groups_found r !! 0%nat = Some [probe; twin]) as Hi
    by (vm_compute; reflexivity).
  assert (should_merge (λ _, false) true false 1 = true) as Hm
    by reflexivity.
  destruct (dedupe_survivor_identity sample_search (λ _, false) (λ _, 99%N)
              true (-3 # 1) false sample_db 0 [probe; twin] Hi Hm)
    as (keeper & pre & post & Hg & Hpre & Hpost & Hleft & survivor & Hk
        & Hid & Hc & _ & Hcontent & _).
  fold r in Hleft, Hk.
  assert (keeper = twin) as ->.
  { destruct pre as [|p [|p' pre]].
    - injection Hg as <- <-.
      assert (twin ∈ [twin]) as Hin by left.
      specialize (Hpost twin Hin). simpl in Hpost. lia.
    - by injection Hg as _ <- _.
    - injection Hg as _ _ Hg. by destruct pre. }
  split; [exact Hi|]. split; [reflexivity|]. split; [reflexivity|]. split.
  - destruct (final_db r !! 1) as [m|] eqn:Hone; [|done].
    assert (probe ∈ [probe; twin]) as Hin by left.
    destruct (Hleft probe Hin) as [Hsome _].
    assert (probe = twin) as Heq by (apply Hsome; by eexists).
    assert (_id probe = _id twin) as Hids by (by rewrite Heq).
    discriminate Hids.
  - exists survivor. split; [exact Hk|]. split; [exact Hid|].
    split; [exact Hc|exact Hcontent].
Defined.

(** ** Short circuit and dry run *)

Lemma query_all_length db : length (query_all db) = size db.
Proof.
  unfold query_all. rewrite length_fmap.
  rewrite (Permutation_length (merge_sort_Permutation id_le (map_to_list db))).
  apply length_map_to_list.
Qed.

(** C9. On a database of fewer than two memories the command returns at
    once: the database is the one it was given, nothing was asked of the
    oracle or of the ranked search, nothing saved or deleted, no group was
    found and none merged; the only output is the "not enough memories"
    line, and none under [--quiet]. *)
Theorem dedupe_short_circuit
    search confirm now dry_run auto threshold quiet db :
  (size db < 2)%nat →
  let r := dedupe search confirm now dry_run auto threshold quiet db in
  final_db r = db
  ∧ trace r = (if quiet then [] else [Echo NotEnough])
  ∧ Forall (λ e, is_query e = false ∧ is_write e = false) (trace r)
  ∧ groups_found r = []
  ∧ total_merged r = 0.
Proof.
  intros Hsize r. subst r. unfold dedupe.
  rewrite query_all_length.
  destruct (Nat.ltb_spec (size db) 2) as [_|Hge]; [|lia].
  simpl. repeat split. destruct quiet; repeat constructor.
Qed.

Lemma dedupe_short_circuit_witness :
  let db : gmap Z Memory := {[ 3 := other ]} in
  let r := dedupe sample_search (λ _, true) (λ _, 99%N) false true (-3 # 1)
                  false db in
  final_db r = db ∧ trace r = [Echo NotEnough] ∧ total_merged r = 0.
Proof.
  intros db r.
  destruct (dedupe_short_circuit sample_search (λ _, true) (λ _, 99%N)
              false true (-3 # 1) false db) as (Hdb & Htr & _ & _ & Hn).
  - vm_compute. lia.
  - by repeat split.
Defined.

(** The builder only queries. *)
Lemma find_similar_events search memory limit threshold :
  Forall (λ e, is_query e = true)
         (_find_similar search memory limit threshold).2.
Proof.
  unfold _find_similar. destruct (take 10 _); [constructor|].
  destruct (search _ _); by repeat constructor.
Qed.

Lemma group_step_searches search threshold b memory :
  Forall (λ e, is_query e = true) (searches b) →
  Forall (λ e, is_query e = true)
         (searches (group_step search threshold b memory)).
Proof.
  intros Hb. unfold group_step.
  destruct (decide (_id memory ∈ seen_ids b)); [done|].
  pose proof (find_similar_events search memory 10 threshold) as Hevs.
  destruct (_find_similar search memory 10 threshold) as [similar evs].
  simpl in Hevs.
  assert (Forall (λ e, is_query e = true)
            (searches b ++ FindSimilar memory 10 threshold :: evs)) as Hall.
  { apply Forall_app. split; [done|]. by constructor. }
  destruct similar as [|s0 similar]; [done|].
  destruct (foldl add_neighbor _ _) as [group seen].
  by destruct (1 <? length group)%nat.
Qed.

Lemma build_groups_searches search threshold all_memories :
  Forall (λ e, is_query e = true)
         (searches (build_groups search threshold all_memories)).
Proof.
  unfold build_groups.
  assert (Forall (λ e, is_query e = true) (searches builder_init)) as Hinit
    by constructor.
  revert Hinit. generalize builder_init.
  induction all_memories as [|m ms IH]; intros b Hb; simpl; [done|].
  apply IH. by apply group_step_searches.
Qed.

(** A dry run only shows the groups. *)
Lemma process_groups_dry confirm now auto quiet igs p :
  foldl (process_group confirm now true auto quiet) p igs
  = mkProgress (db_now p) (log p ++ shown quiet igs) (merged_count p).
Proof.
  revert p. induction igs as [|[i g] igs IH]; intros [db l n]; simpl.
  - unfold shown. simpl. by rewrite app_nil_r.
  - rewrite IH. simpl. unfold shown. simpl. by rewrite <- app_assoc.
Qed.

Lemma shown_groups_show_group quiet i group :
  shown_groups (show_group quiet i group) = show_group quiet i group.
Proof.
  unfold show_group. destruct quiet; [done|].
  unfold shown_groups. rewrite filter_cons_True by done. f_equal.
  induction group as [|m group IH]; simpl; [done|].
  rewrite filter_cons_True by done. by f_equal.
Qed.

Lemma shown_groups_merge now group db :
  shown_groups (merge_group now group db).1.1.2 = [].
Proof.
  unfold merge_group. destruct (sort_newest_first group) as [|k rest];
    [done|].
  simpl. unfold shown_groups. rewrite filter_cons_False by done.
  induction rest as [|m rest IH]; simpl; [done|].
  by rewrite filter_cons_False by done.
Qed.

Lemma shown_groups_process_group confirm now dry_run auto quiet p i group :
  shown_groups
    (log (process_group confirm now dry_run auto quiet p (i, group)))
  = shown_groups (log p) ++ show_group quiet i group.
Proof.
  unfold process_group, shown_groups.
  pose proof (shown_groups_show_group quiet i group) as Hshow.
  unfold shown_groups in Hshow.
  destruct dry_run; simpl; [by rewrite filter_app, Hshow|].
  assert (filter (λ e, is_group_line e = true)
                 (if negb auto && negb quiet then [Confirm i] else []) = [])
    as Hask by (by destruct (negb auto && negb quiet)).
  destruct (should_merge confirm auto quiet i).
  - pose proof (shown_groups_merge (now i) group (db_now p)) as Hmerge.
    unfold shown_groups in Hmerge.
    destruct (merge_group (now i) group (db_now p)) as [[[db' evs] k] n].
    simpl in *.
    assert (filter (λ e, is_group_line e = true)
              match k with
              | Some keeper =>
                  if quiet then []
                  else [Echo (MergedInto (_id keeper) (length group - 1))]
              | None => []
              end = []) as Htold.
    { by destruct k as [k|]; [destruct quiet|]. }
    rewrite !filter_app, Hshow, Hask, Hmerge, Htold. simpl.
    by rewrite app_nil_r.
  - simpl. rewrite !filter_app, Hshow, Hask. by rewrite app_nil_r.
Qed.

Lemma shown_groups_process_groups confirm now dry_run auto quiet igs p :
  shown_groups
    (log (foldl (process_group confirm now dry_run auto quiet) p igs))
  = shown_groups (log p) ++ shown quiet igs.
Proof.
  revert p. induction igs as [|[i g] igs IH]; intros p; cbn [foldl].
  - unfold shown. simpl. by rewrite app_nil_r.
  - rewrite IH, shown_groups_process_group. unfold shown. simpl.
    by rewrite <- app_assoc.
Qed.

Lemma shown_groups_nil_of (l : list event) :
  Forall (λ e, is_group_line e = false) l → shown_groups l = [].
Proof.
  unfold shown_groups. induction 1 as [|e l He _ IH]; [done|].
  rewrite filter_cons_False; [done | congruence].
Qed.

(** The groups a run found are those of the builder, whatever its mode. *)
Lemma dedupe_groups_found
    search confirm now dry_run auto threshold quiet db :
  groups_found (dedupe search confirm now dry_run auto threshold quiet db)
  = if (length (query_all db) <? 2)%nat then []
    else duplicate_groups
           (build_groups (search db) threshold (query_all db)).
Proof.
  unfold dedupe. destruct (length (query_all db) <? 2)%nat; [done|].
  by destruct (duplicate_groups _) eqn:Hb.
Qed.

(** The groups a run shows are those of the builder, whatever its mode. *)
Lemma dedupe_shown_groups
    search confirm now dry_run auto threshold quiet db :
  shown_groups
    (trace (dedupe search confirm now dry_run auto threshold quiet db))
  = if (length (query_all db) <? 2)%nat then []
    else shown quiet
           (enumerate1
              (duplicate_groups
                 (build_groups (search db) threshold (query_all db)))).
Proof.
  unfold dedupe. destruct (length (query_all db) <? 2)%nat.
  { simpl. by destruct quiet. }
  pose proof (build_groups_searches (search db) threshold (query_all db))
    as Hq.
  set (b := build_groups (search db) threshold (query_all db)) in *.
  assert (shown_groups (searches b) = []) as Hsearch.
  { apply shown_groups_nil_of. eapply Forall_impl; [exact Hq|].
    by intros []. }
  destruct (duplicate_groups b) as [|g0 groups] eqn:Hb; cbn [trace].
  { unfold shown_groups in *. rewrite filter_app, Hsearch.
    by destruct quiet. }
  unfold shown_groups at 1. rewrite filter_app.
  change (filter (λ e, is_group_line e = true) ?l) with (shown_groups l).
  rewrite shown_groups_process_groups. cbn [log].
  unfold shown_groups at 1. rewrite filter_app.
  change (filter (λ e, is_group_line e = true) ?l) with (shown_groups l).
  rewrite Hsearch.
  assert (∀ l, shown_groups (if quiet then [] else [Echo (Found l)]) = [])
    as -> by (by destruct quiet).
  assert (∀ n, shown_groups
                 (if negb quiet && negb dry_run
                  then [Echo (MergedTotal n)] else []) = [])
    as -> by (by destruct (negb quiet && negb dry_run)).
  simpl. by rewrite app_nil_r.
Qed.

(** A dry run writes nothing. *)
Lemma dedupe_dry_run_frame search confirm now auto threshold quiet db :
  let dry := dedupe search confirm now true auto threshold quiet db in
  final_db dry = db
  ∧ total_merged dry = 0
  ∧ Forall (λ e, is_write e = false) (trace dry).
Proof.
  assert (∀ q igs, Forall (λ e, is_write e = false) (shown q igs)) as Hsh.
  { intros q igs. unfold shown. induction igs as [|[i g] igs IH]; simpl;
      [constructor|].
    apply Forall_app. split; [|done]. unfold show_group.
    destruct q; [constructor|]. constructor; [done|].
    apply Forall_app. split; [|by repeat constructor].
    apply Forall_fmap. by apply Forall_true. }
  intros dry. subst dry. unfold dedupe.
  destruct (length (query_all db) <? 2)%nat.
  { simpl. repeat split. destruct quiet; by repeat constructor. }
  pose proof (build_groups_searches (search db) threshold (query_all db))
    as Hq.
  set (b := build_groups (search db) threshold (query_all db)) in *.
  assert (Forall (λ e, is_write e = false) (searches b)) as Hsearch.
  { eapply Forall_impl; [exact Hq|]. by intros []. }
  destruct (duplicate_groups b) as [|g0 groups] eqn:Hb.
  { simpl. repeat split. apply Forall_app. split; [done|].
    destruct quiet; by repeat constructor. }
  rewrite process_groups_dry. simpl. rewrite andb_false_r, app_nil_r.
  split; [done|]. split; [done|].
  rewrite !Forall_app. split; [split|]; [done | | apply Hsh].
  destruct quiet; by repeat constructor.
Qed.

(** C10. A dry run finds the same groups, in the same order, as a run
    that merges would on the same database, and shows them alike; it calls
    neither [save] nor [delete], so the database it leaves is the one it
    was given, with the same number of records and every record as it was,
    and its merged count is zero. *)
Theorem dedupe_dry_run_pure
    search confirm confirm' now now' auto auto' threshold quiet db :
  let dry := dedupe search confirm now true auto threshold quiet db in
  let wet := dedupe search confirm' now' false auto' threshold quiet db in
  groups_found dry = groups_found wet
  ∧ shown_groups (trace dry) = shown_groups (trace wet)
  ∧ Forall (λ e, is_write e = false) (trace dry)
  ∧ final_db dry = db
  ∧ size (final_db dry) = size db
  ∧ (∀ i, final_db dry !! i = db !! i)
  ∧ total_merged dry = 0.
Proof.
  intros dry wet. subst dry wet.
  destruct (dedupe_dry_run_frame search confirm now auto threshold quiet db)
    as (Hdb & Hn & Hw).
  rewrite !dedupe_groups_found, !dedupe_shown_groups, Hdb.
  by repeat split.
Qed.

(** ** Duplicate tags *)

(** [tags add] keeps a duplicate-free tag list duplicate-free. *)
Lemma tags_add_NoDup now memory_id tag db db' memory :
  from_id db memory_id = Some memory →
  _id memory = memory_id →
  NoDup (tags memory) →
  tags_add now memory_id tag db = Some db' →
  ∃ memory', db' !! memory_id = Some memory' ∧ NoDup (tags memory').
Proof.
  intros Hm Hid Hnd. unfold tags_add. rewrite Hm.
  destruct (decide (tag ∈ tags memory)) as [Hin|Hout]; intros [= <-].
  - by exists memory.
  - simpl. rewrite Hid, lookup_insert_eq. eexists. split; [done|]. simpl.
    apply NoDup_app. split; [done|]. split; [|apply NoDup_singleton].
    intros x Hx ->%list_elem_of_singleton. done.
Qed.

(** C3 fails on the code. [remember] stores the [--tag] values as given,
    so a repeated value is stored twice; [update], whose [existing] set is
    not refreshed inside its loop, appends a repeated new value twice; and
    [import] stores the tag list of the file as it is. *)
Theorem duplicate_tags_are_stored :
  let a := py "a" in
  tags (remember (λ _ _, false) false 50%N (py "note") (Some [a; a]) None
          (py "user") None false false None None None None 3 false ∅).1
    = [a; a]
  ∧ (tags <$> (update 60%N 1 None (Some [a; a]) false
                 {[ 1 := note 1 "note" [] 5%N ]} ≫= λ db, db !! 1))
    = Some [a; a]
  ∧ (tags <$> import_memories (λ _, 70%N)
                [mkItem (py "note") (Some [a; a]) None None None None None
                   None None None] ∅ !! 1)
    = Some [a; a]
  ∧ ¬ NoDup [a; a].
Proof.
  intros a. split; [reflexivity|]. split; [by vm_compute|].
  split; [by vm_compute|].
  intros Hnd. apply NoDup_cons in Hnd as [Hnotin _]. apply Hnotin. left.
Qed.

(** * Further properties *)

(** ** The oracle as filter and truncation *)

Lemma qualifying_cons_self memory threshold r rest :
  _id (model r) = _id memory →
  qualifying memory threshold (r :: rest) = qualifying memory threshold rest.
Proof.
  intros Hid. unfold qualifying. rewrite filter_cons_False; [done|].
  by intros [? _].
Qed.

Lemma qualifying_cons_out memory threshold r rest :
  Qle_bool (score r) threshold = false →
  qualifying memory threshold (r :: rest) = qualifying memory threshold rest.
Proof.
  intros Hsc. unfold qualifying. rewrite filter_cons_False; [done|].
  intros [_ ?]. congruence.
Qed.

Lemma qualifying_cons_in memory threshold r rest :
  _id (model r) ≠ _id memory →
  Qle_bool (score r) threshold = true →
  qualifying memory threshold (r :: rest)
  = (model r, score r) :: qualifying memory threshold rest.
Proof.
  intros Hid Hsc. unfold qualifying. by rewrite filter_cons_True.
Qed.

(** While room is left, the scan appends the qualifying pairs until the
    list holds [limit] of them. *)
Lemma scan_results_take memory limit threshold results similar :
  Z.of_nat (length similar) < limit →
  scan_results memory limit threshold results similar
  = similar ++ take (Z.to_nat limit - length similar)
                    (qualifying memory threshold results).
Proof.
  revert similar. induction results as [|r rest IH]; intros similar Hlen.
  - simpl. unfold qualifying. rewrite filter_nil. simpl.
    by rewrite take_nil, app_nil_r.
  - simpl. destruct (Z.eqb_spec (_id (model r)) (_id memory)) as [Hid|Hid].
    { rewrite qualifying_cons_self by done. by apply IH. }
    destruct (Qle_bool (score r) threshold) eqn:Hsc.
    + rewrite qualifying_cons_in by done.
      destruct (Z.to_nat limit - length similar)%nat as [|k] eqn:Hk; [lia|].
      simpl.
      destruct (Z.leb_spec limit
                  (Z.of_nat (length (similar ++ [(model r, score r)]))))
        as [Hge|Hlt]; rewrite length_app in *; simpl in *.
      * assert (k = 0)%nat as -> by lia. by rewrite take_0.
      * rewrite IH by (rewrite length_app; simpl; lia).
        rewrite length_app. simpl. rewrite <- app_assoc. simpl.
        do 3 f_equal. lia.
    + rewrite qualifying_cons_out by done.
      destruct (Z.leb_spec limit (Z.of_nat (length similar))); [lia|].
      by apply IH.
Qed.

(** X1. For a limit of at least 1 and a search that answers, the oracle
    returns the first [limit] pairs, in the order of the answer, among the
    results that are not the probe and score within the threshold. *)
Theorem find_similar_is_filter_then_truncate
    search memory limit threshold results :
  1 ≤ limit →
  split (content memory) ≠ [] →
  search (join (py " OR ") (take 10 (split (content memory)))) (limit + 1)
    = Returned results →
  (_find_similar search memory limit threshold).1
  = take (Z.to_nat limit) (qualifying memory threshold results).
Proof.
  intros Hlim Hne Hs. rewrite find_similar_tokens by done. cbv zeta.
  rewrite Hs. simpl. rewrite scan_results_take by (simpl; lia). simpl.
  f_equal. lia.
Qed.

Lemma find_similar_is_filter_then_truncate_witness :
  (_find_similar search_twin probe 3 (-5 # 1)).1
  = take 3 (qualifying probe (-5 # 1)
              [mkResult probe (-9 # 1); mkResult twin (-6 # 1)]).
Proof.
  apply (find_similar_is_filter_then_truncate search_twin probe 3 (-5 # 1)).
  - lia.
  - vm_compute. discriminate.
  - reflexivity.
Defined.

(** The oracle returns at most [limit] pairs when [limit] is positive. *)
Lemma find_similar_length search memory limit threshold :
  1 ≤ limit →
  (length (_find_similar search memory limit threshold).1 ≤ Z.to_nat limit)%nat.
Proof.
  intros Hlim. destruct (decide (split (content memory) = [])) as [He|Hne].
  - apply take_split_nil in He. unfold _find_similar. rewrite He. simpl. lia.
  - rewrite find_similar_tokens by done. cbv zeta. simpl.
    destruct (search _ _) as [results|e]; simpl; [|lia].
    pose proof (scan_results_length memory limit threshold results [] Hlim).
    simpl in *. lia.
Qed.

(** ** Groups are single-hop *)

Lemma group_step_single_hop search threshold all_memories b memory :
  memory ∈ all_memories →
  Forall (single_hop_group search threshold all_memories)
         (duplicate_groups b) →
  Forall (single_hop_group search threshold all_memories)
         (duplicate_groups (group_step search threshold b memory)).
Proof.
  intros Hmem Hb. unfold group_step.
  destruct (decide (_id memory ∈ seen_ids b)); [done|].
  pose proof (find_similar_length search memory 10 threshold) as Hlen.
  destruct (_find_similar search memory 10 threshold) as [similar evs] eqn:Hf.
  simpl in Hlen.
  destruct similar as [|s0 similar']; [done|].
  set (similar := s0 :: similar') in *.
  destruct (add_neighbors_spec similar [memory] (seen_ids b))
    as (added & -> & Hnd & _ & Hsub).
  destruct added as [|a added]; [done|]. simpl.
  apply Forall_app. split; [done|]. constructor; [|done].
  exists memory, (a :: added). split; [done|]. split; [done|]. split.
  - apply NoDup_fmap_1 in Hnd.
    assert (a :: added ⊆+ similar.*1) as Hms by (by apply NoDup_submseteq).
    apply submseteq_length in Hms. rewrite length_fmap in Hms.
    specialize (Hlen ltac:(lia)). lia.
  - intros m Hm. apply Hsub in Hm.
    apply list_elem_of_fmap in Hm as ([m' sc] & -> & Hp). rewrite Hf.
    by exists sc.
Qed.

Lemma foldl_group_step_single_hop search threshold all_memories ms b :
  (∀ m, m ∈ ms → m ∈ all_memories) →
  Forall (single_hop_group search threshold all_memories)
         (duplicate_groups b) →
  Forall (single_hop_group search threshold all_memories)
         (duplicate_groups (foldl (group_step search threshold) b ms)).
Proof.
  revert b. induction ms as [|m ms IH]; intros b Hin Hb; simpl; [done|].
  apply IH.
  - intros m' Hm'. apply Hin. by right.
  - apply group_step_single_hop; [|done]. apply Hin. by left.
Qed.

(** X2. Every group the builder emits is a seed taken from the memories it
    iterates, followed by at most ten neighbours, each of them returned by
    the oracle for that seed: groups have at most eleven members and no
    neighbour of a neighbour is ever followed. *)
Theorem build_groups_single_hop search threshold all_memories :
  Forall (single_hop_group search threshold all_memories)
         (duplicate_groups (build_groups search threshold all_memories)).
Proof.
  unfold build_groups.
  apply foldl_group_step_single_hop; [done | constructor].
Qed.

(** ** What a run leaves alone *)

(** X3. Whatever its mode and the answers it gets, [dedupe] leaves every
    record whose id belongs to none of the groups it found as it was. *)
Theorem dedupe_frame
    search confirm now dry_run auto threshold quiet db (x : Z) :
  let r := dedupe search confirm now dry_run auto threshold quiet db in
  x ∉ group_ids (groups_found r) →
  final_db r !! x = db !! x.
Proof.
  intros r Hx. subst r. unfold dedupe in *.
  destruct (length (query_all db) <? 2)%nat; [done|].
  destruct (duplicate_groups _) as [|g0 groups] eqn:Hb; [done|].
  cbn [final_db groups_found] in *.
  rewrite process_groups_frame; [done|].
  intros [i g] Hig Hxg. apply Hx. apply elem_of_group_ids.
  exists g. split; [|done].
  rewrite <- (enumerate1_snd (g0 :: groups)).
  apply list_elem_of_fmap. by exists (i, g).
Qed.

Lemma dedupe_frame_witness :
  let r := dedupe sample_search (λ _, true) (λ _, 99%N) false true
                  (-3 # 1) false sample_db in
  final_db r !! 3 = Some other.
Proof.
  intros r. subst r.
  rewrite (dedupe_frame sample_search (λ _, true) (λ _, 99%N) false true
             (-3 # 1) false sample_db 3).
  - reflexivity.
  - vm_compute. intros H. inversion H as [|? ? ? H']; subst.
    inversion H' as [|? ? ? H'']; subst. inversion H''.
Defined.

(** Groups that are shown but not merged change nothing. *)
Lemma process_groups_unapproved confirm now dry_run auto quiet igs p :
  (∀ i, should_merge confirm auto quiet i = false) →
  Forall (λ e, is_write e = false) (log p) →
  let p' := foldl (process_group confirm now dry_run auto quiet) p igs in
  db_now p' = db_now p
  ∧ merged_count p' = merged_count p
  ∧ Forall (λ e, is_write e = false) (log p').
Proof.
  intros Hno. revert p. induction igs as [|[i g] igs IH]; intros p Hlog;
    cbn [foldl]; [done|].
  assert (let p1 := process_group confirm now dry_run auto quiet p (i, g) in
          db_now p1 = db_now p ∧ merged_count p1 = merged_count p
          ∧ Forall (λ e, is_write e = false) (log p1)) as (Hdb & Hn & Hl).
  { assert (Forall (λ e, is_write e = false) (show_group quiet i g)) as Hsh.
    { unfold show_group. destruct quiet; [constructor|].
      constructor; [done|]. apply Forall_app. split; [|by repeat constructor].
      apply Forall_fmap. by apply Forall_true. }
    unfold process_group. destruct dry_run; simpl.
    - repeat split. by apply Forall_app.
    - rewrite Hno. simpl. repeat split. rewrite !Forall_app.
      repeat split; try done. by destruct (negb auto && negb quiet);
        repeat constructor. }
  destruct (IH _ Hl) as (Hdb' & Hn' & Hl').
  cbv zeta in *. rewrite Hdb', Hn', Hdb, Hn. by repeat split.
Qed.

(** Under [--quiet] and without [--auto] the loop over the groups does
    nothing at all. *)
Lemma process_groups_quiet confirm now dry_run igs p :
  foldl (process_group confirm now dry_run false true) p igs = p.
Proof.
  revert p. induction igs as [|[i g] igs IH]; intros p; cbn [foldl]; [done|].
  rewrite IH. unfold process_group. destruct p as [db l n].
  destruct dry_run; simpl; by rewrite app_nil_r.
Qed.

(** X4. A run without [--auto] in which no prompt is answered yes, and
    every run under [--quiet] without [--auto] (the prompt is then never
    shown), leaves the database as it was, writes nothing and reports
    nothing merged; under [--quiet] all it does is query. *)
Theorem dedupe_without_approval
    search confirm now dry_run threshold quiet db :
  quiet = true ∨ (∀ i, confirm i = false) →
  let r := dedupe search confirm now dry_run false threshold quiet db in
  final_db r = db
  ∧ total_merged r = 0
  ∧ Forall (λ e, is_write e = false) (trace r)
  ∧ (quiet = true → Forall (λ e, is_query e = true) (trace r)).
Proof.
  intros Hq r.
  assert (∀ i, should_merge confirm false quiet i = false) as Hno.
  { intros i. unfold should_merge. destruct Hq as [->|Hc]; [done|].
    destruct quiet; simpl; [done | apply Hc]. }
  subst r. unfold dedupe.
  destruct (length (query_all db) <? 2)%nat.
  { simpl. repeat split; destruct quiet; try done; by repeat constructor. }
  pose proof (build_groups_searches (search db) threshold (query_all db))
    as Hqs.
  set (b := build_groups (search db) threshold (query_all db)) in *.
  assert (Forall (λ e, is_write e = false) (searches b)) as Hws.
  { eapply Forall_impl; [exact Hqs|]. by intros []. }
  destruct (duplicate_groups b) as [|g0 groups] eqn:Hb.
  { simpl. repeat split.
    - apply Forall_app. split; [done|]. destruct quiet; by repeat constructor.
    - intros ->. by rewrite app_nil_r. }
  cbn [final_db total_merged trace].
  set (p0 := mkProgress db _ 0).
  assert (Forall (λ e, is_write e = false) (log p0)) as Hl0.
  { subst p0. simpl. apply Forall_app. split; [done|].
    destruct quiet; by repeat constructor. }
  destruct (process_groups_unapproved confirm now dry_run false quiet
              (enumerate1 (g0 :: groups)) p0 Hno Hl0) as (Hdb & Hn & Hl).
  rewrite Hdb, Hn. split; [done|]. split; [done|]. split.
  - apply Forall_app. split; [done|].
    destruct (negb quiet && negb dry_run); by repeat constructor.
  - intros ->. subst p0. rewrite process_groups_quiet. simpl.
    by rewrite !app_nil_r.
Qed.

Lemma dedupe_without_approval_witness :
  let r := dedupe sample_search (λ _, true) (λ _, 99%N) false false
                  (-3 # 1) true sample_db in
  final_db r = sample_db ∧ total_merged r = 0.
Proof.
  intros r.
  destruct (dedupe_without_approval sample_search (λ _, true) (λ _, 99%N)
              false (-3 # 1) true sample_db) as (Hdb & Hn & _).
  - by left.
  - by split.
Defined.

(** ** [tags add] and [tags rm] *)

Lemma filter_all {A} (P : A → Prop) `{∀ x, Decision (P x)} (l : list A) :
  Forall P l → filter P l = l.
Proof.
  induction 1 as [|x l Hx _ IH]; [done|].
  by rewrite filter_cons_True, IH.
Qed.

Lemma filter_none {A} (P : A → Prop) `{∀ x, Decision (P x)} (l : list A) :
  Forall (λ x, ¬ P x) l → filter P l = [].
Proof.
  induction 1 as [|x l Hx _ IH]; [done|].
  by rewrite filter_cons_False.
Qed.

(** X5. On a stored memory, [tags add] succeeds and leaves the tag on the
    memory: the new tag list is the old one with the tag appended if it was
    not there; a tag already present changes nothing at all; a
    duplicate-free tag list stays duplicate-free; no other record is
    touched. On an unknown id the command exits with status 1. *)
Theorem tags_add_postcondition now memory_id tag db :
  (db !! memory_id = None → tags_add now memory_id tag db = None)
  ∧ ∀ memory,
      db !! memory_id = Some memory →
      _id memory = memory_id →
      ∃ db' memory',
        tags_add now memory_id tag db = Some db'
        ∧ db' !! memory_id = Some memory'
        ∧ tag ∈ tags memory'
        ∧ tags memory'
          = (if decide (tag ∈ tags memory) then tags memory
             else tags memory ++ [tag])
        ∧ (tag ∈ tags memory → db' = db)
        ∧ (NoDup (tags memory) → NoDup (tags memory'))
        ∧ ∀ j, j ≠ memory_id → db' !! j = db !! j.
Proof.
  unfold tags_add, from_id. split; [by intros ->|].
  intros memory Hm Hid. rewrite Hm.
  destruct (decide (tag ∈ tags memory)) as [Hin|Hout].
  - exists db, memory. by repeat split.
  - eexists _, _. split; [done|]. simpl. rewrite Hid, lookup_insert_eq.
    split; [done|]. simpl. split; [set_solver|]. split; [done|].
    split; [done|]. split.
    + intros Hnd. apply NoDup_app. split; [done|].
      split; [|apply NoDup_singleton].
      by intros x Hx ->%list_elem_of_singleton.
    + intros j Hj. by rewrite lookup_insert_ne.
Qed.

Lemma tags_add_postcondition_witness :
  ∃ db' memory',
    tags_add 40%N 1 (py "urgent") sample_db = Some db'
    ∧ db' !! 1 = Some memory'
    ∧ tags memory' = [py "old-tag"; py "urgent"].
Proof.
  destruct (tags_add_postcondition 40%N 1 (py "urgent") sample_db)
    as [_ Hadd].
  destruct (Hadd probe) as (db' & memory' & Hdb & Hm & _ & Ht & _).
  - reflexivity.
  - reflexivity.
  - exists db', memory'. split; [exact Hdb|]. split; [exact Hm|].
    rewrite Ht. reflexivity.
Defined.

(** X6. On a stored memory, [tags rm] succeeds and leaves the tag list
    without any occurrence of the tag, the other tags in their order; a tag
    the memory does not have changes nothing at all; no other record is
    touched. On an unknown id the command exits with status 1. *)
Theorem tags_remove_postcondition now memory_id tag db :
  (db !! memory_id = None → tags_remove now memory_id tag db = None)
  ∧ ∀ memory,
      db !! memory_id = Some memory →
      _id memory = memory_id →
      ∃ db' memory',
        tags_remove now memory_id tag db = Some db'
        ∧ db' !! memory_id = Some memory'
        ∧ (tag ∉ tags memory')
        ∧ tags memory' = filter (λ t, t ≠ tag) (tags memory)
        ∧ (tag ∉ tags memory → db' = db)
        ∧ ∀ j, j ≠ memory_id → db' !! j = db !! j.
Proof.
  unfold tags_remove, from_id. split; [by intros ->|].
  intros memory Hm Hid. rewrite Hm.
  assert (tag ∉ filter (λ t, t ≠ tag) (tags memory)) as Hgone.
  { intros [? _]%list_elem_of_filter. done. }
  destruct (decide (tag ∉ tags memory)) as [Hout|Hin].
  - exists db, memory. split; [done|]. split; [done|]. split; [done|].
    split; [|done]. symmetry. apply filter_all.
    apply Forall_forall. intros t Ht ->. done.
  - eexists _, _. split; [done|]. simpl. rewrite Hid, lookup_insert_eq.
    split; [done|]. simpl. split; [done|]. split; [done|]. split; [done|].
    intros j Hj. by rewrite lookup_insert_ne.
Qed.

Lemma tags_remove_postcondition_witness :
  ∃ db' memory',
    tags_remove 40%N 1 (py "old-tag") sample_db = Some db'
    ∧ db' !! 1 = Some memory'
    ∧ tags memory' = [].
Proof.
  destruct (tags_remove_postcondition 40%N 1 (py "old-tag") sample_db)
    as [_ Hrm].
  destruct (Hrm probe) as (db' & memory' & Hdb & Hm & _ & Ht & _).
  - reflexivity.
  - reflexivity.
  - exists db', memory'. split; [exact Hdb|]. split; [exact Hm|].
    rewrite Ht. reflexivity.
Defined.

(** X7. Adding a tag a stored memory does not have and then removing it
    gives back the memory as it was, but for the time of its last save. *)
Theorem tags_add_then_remove now now' memory_id tag db memory :
  db !! memory_id = Some memory →
  _id memory = memory_id →
  tag ∉ tags memory →
  ∃ db1,
    tags_add now memory_id tag db = Some db1
    ∧ tags_remove now' memory_id tag db1
      = Some (<[memory_id := set_updated_at (Some now') memory]> db).
Proof.
  intros Hm Hid Hout. unfold tags_add, tags_remove, from_id. rewrite Hm.
  rewrite decide_False by done. eexists. split; [done|]. simpl.
  rewrite Hid, lookup_insert_eq. simpl.
  rewrite decide_False by set_solver. simpl. rewrite Hid.
  rewrite insert_insert_eq. do 2 f_equal.
  rewrite filter_app, filter_cons_False, filter_nil, app_nil_r by naive_solver.
  rewrite filter_all.
  - by destruct memory.
  - apply Forall_forall. intros t Ht ->. done.
Qed.

Lemma tags_add_then_remove_witness :
  ∃ db1,
    tags_add 40%N 1 (py "urgent") sample_db = Some db1
    ∧ tags_remove 41%N 1 (py "urgent") db1
      = Some (<[1 := set_updated_at (Some 41%N) probe]> sample_db).
Proof.
  apply (tags_add_then_remove 40%N 41%N 1 (py "urgent") sample_db probe).
  - reflexivity.
  - reflexivity.
  - vm_compute. intros H. inversion H as [|? ? ? H']; subst. inversion H'.
Defined.

(** ** [update] *)

Lemma set_tags_same (m : Memory) : set_tags (tags m) m = m.
Proof. by destruct m. Qed.

Lemma set_see_also_same (m : Memory) : set_see_also (see_also m) m = m.
Proof. by destruct m. Qed.

(** The loop over the [--tag] values, [existing] being fixed. *)
Lemma update_tags_loop (existing : gset str) (tag : list str) m c :
  let r :=
    foldl (λ (mc : Memory * bool) t,
             if decide (t ∉ existing)
             then (set_tags (tags mc.1 ++ [t]) mc.1, true)
             else mc)
          (m, c) tag in
  r.1 = set_tags (tags m ++ filter (λ t, t ∉ existing) tag) m
  ∧ (r.2 = true ↔ c = true ∨ ∃ t, t ∈ tag ∧ t ∉ existing).
Proof.
  revert m c. induction tag as [|t tag IH]; intros m c;
    cbn [foldl fst snd].
  - cbv zeta. simpl. rewrite filter_nil, app_nil_r, set_tags_same.
    split; [done|]. split; [by left|].
    intros [?|(t & ?%elem_of_nil & _)]; done.
  - destruct (decide (t ∉ existing)) as [Hout|Hin].
    + destruct (IH (set_tags (tags m ++ [t]) m) true) as [H1 H2].
      cbv zeta in *. rewrite H1, filter_cons_True by done. simpl. split.
      * by rewrite <- app_assoc.
      * rewrite H2. split; [|by left]. intros _. right. exists t.
        split; [by left | done].
    + destruct (IH m c) as [H1 H2]. cbv zeta in *.
      rewrite H1, filter_cons_False by done. split; [done|].
      rewrite H2. split.
      * intros [?|(t' & Ht' & Hout)]; [by left|]. right. exists t'.
        split; [by right | done].
      * intros [?|(t' & [->|Ht']%elem_of_cons & Hout)]; [by left | done |].
        right. by exists t'.
Qed.

Lemma update_tags_spec tag clear_tags m c :
  let r := update_tags tag clear_tags (m, c) in
  r.1 = set_tags (if clear_tags then []
                  else tags m ++ filter (λ t, t ∉ tags m) (default [] tag)) m
  ∧ (r.2 = true ↔
     c = true ∨ clear_tags = true
     ∨ ∃ t, t ∈ default [] tag ∧ t ∉ tags m).
Proof.
  unfold update_tags. destruct clear_tags.
  { cbv zeta. simpl. split; [done|]. split; [intros _; right; by left|done]. }
  destruct tag as [[|t tag]|].
  - cbv zeta. simpl. rewrite filter_nil, app_nil_r, set_tags_same.
    split; [done|]. split; [by left|].
    intros [?|[?|(t & ?%elem_of_nil & _)]]; done.
  - destruct (update_tags_loop (list_to_set (tags m)) (t :: tag) m c)
      as [H1 H2].
    cbv zeta in *. rewrite H1, H2. simpl default. split.
    + f_equal. f_equal. apply list_filter_iff. intros x.
      by rewrite elem_of_list_to_set.
    + split.
      * intros [?|(x & Hx & Hout)]; [by left|]. right. right. exists x.
        split; [done|]. by rewrite elem_of_list_to_set in Hout.
      * intros [?|[?|(x & Hx & Hout)]]; [by left | done |]. right. exists x.
        split; [done|]. by rewrite elem_of_list_to_set.
  - cbv zeta. simpl. rewrite filter_nil, app_nil_r, set_tags_same.
    split; [done|]. split; [by left|].
    intros [?|[?|(t & ?%elem_of_nil & _)]]; done.
Qed.

Lemma update_see_also_loop (existing : gset Z) (sids : list Z) m c :
  let r :=
    foldl (λ (mc : Memory * bool) sid,
             if decide (sid ∉ existing)
             then (set_see_also (see_also mc.1 ++ [sid]) mc.1, true)
             else mc)
          (m, c) sids in
  r.1 = set_see_also (see_also m ++ filter (λ s, s ∉ existing) sids) m
  ∧ (r.2 = true ↔ c = true ∨ ∃ s, s ∈ sids ∧ s ∉ existing).
Proof.
  revert m c. induction sids as [|s sids IH]; intros m c;
    cbn [foldl fst snd].
  - cbv zeta. simpl. rewrite filter_nil, app_nil_r, set_see_also_same.
    split; [done|]. split; [by left|].
    intros [?|(s & ?%elem_of_nil & _)]; done.
  - destruct (decide (s ∉ existing)) as [Hout|Hin].
    + destruct (IH (set_see_also (see_also m ++ [s]) m) true) as [H1 H2].
      cbv zeta in *. rewrite H1, filter_cons_True by done. simpl. split.
      * by rewrite <- app_assoc.
      * rewrite H2. split; [|by left]. intros _. right. exists s.
        split; [by left | done].
    + destruct (IH m c) as [H1 H2]. cbv zeta in *.
      rewrite H1, filter_cons_False by done. split; [done|].
      rewrite H2. split.
      * intros [?|(s' & Hs' & Hout)]; [by left|]. right. exists s'.
        split; [by right | done].
      * intros [?|(s' & [->|Hs']%elem_of_cons & Hout)]; [by left | done |].
        right. by exists s'.
Qed.

Lemma update_see_also_spec see_also_opt m c :
  let r := update_see_also see_also_opt (m, c) in
  r.1 = set_see_also
          (see_also m
           ++ filter (λ s, s ∉ see_also m) (default [] see_also_opt)) m
  ∧ (r.2 = true ↔
     c = true ∨ ∃ s, s ∈ default [] see_also_opt ∧ s ∉ see_also m).
Proof.
  unfold update_see_also. destruct see_also_opt as [[|s sids]|].
  - cbv zeta. simpl. rewrite filter_nil, app_nil_r, set_see_also_same.
    split; [done|]. split; [by left|].
    intros [?|(s & ?%elem_of_nil & _)]; done.
  - destruct (update_see_also_loop (list_to_set (see_also m)) (s :: sids) m c)
      as [H1 H2].
    cbv zeta in *. cbn [fst] in *. rewrite H1, H2. simpl default. split.
    + f_equal. f_equal. apply list_filter_iff. intros x.
      by rewrite elem_of_list_to_set.
    + split.
      * intros [?|(x & Hx & Hout)]; [by left|]. right. exists x.
        split; [done|]. by rewrite elem_of_list_to_set in Hout.
      * intros [?|(x & Hx & Hout)]; [by left|]. right. exists x.
        split; [done|]. by rewrite elem_of_list_to_set.
  - cbv zeta. simpl. rewrite filter_nil, app_nil_r, set_see_also_same.
    split; [done|]. split; [by left|].
    intros [?|(s & ?%elem_of_nil & _)]; done.
Qed.

Lemma assign_if_given_flag {A} (value : option A) set mc :
  (assign_if_given value set mc).2 = true ↔ mc.2 = true ∨ is_Some value.
Proof.
  destruct value as [v|]; simpl.
  - split; [intros _; right; by eexists | done].
  - split; [by left | intros [?|[? ?]]; done].
Qed.

(** What [update] computes from a memory and its options. *)
Lemma update_fields_spec o m :
  let r := update_fields o m in
  tags r.1 = updated_tags o m
  ∧ see_also r.1
    = see_also m
      ++ filter (λ s, s ∉ see_also m) (default [] (opt_see_also o))
  ∧ kept_fields r.1 = kept_fields m
  ∧ (r.2 = true ↔ update_requested o m).
Proof.
  destruct o as [oc ot ox cl os osu osa ou ofl oi].
  unfold update_fields, update_requested, updated_tags. cbn [opt_content
    opt_tag opt_context opt_clear_tags opt_session opt_supersedes
    opt_see_also opt_source_url opt_source_file opt_importance].
  set (mc0 := assign_if_given oc set_content (m, false)).
  assert (tags mc0.1 = tags m ∧ see_also mc0.1 = see_also m
          ∧ kept_fields mc0.1 = kept_fields m
          ∧ (mc0.2 = true ↔ is_Some oc)) as (Ht0 & Hs0 & Hk0 & Hc0).
  { subst mc0. destruct oc; simpl; repeat split; try done;
      intros [? ?]; done. }
  destruct mc0 as [m0 c0]. cbn [fst snd] in *.
  destruct (update_tags_spec ot cl m0 c0) as [H1 Hc1].
  destruct (update_tags ot cl (m0, c0)) as [m1 c1]. cbn [fst snd] in *.
  set (mc4 :=
         assign_if_given osu (λ s, set_supersedes (Some s))
           (assign_if_given os (λ s, set_session_id (Some s))
              (assign_if_given ox (λ c, set_context (Some c)) (m1, c1)))).
  assert (tags mc4.1 = tags m1 ∧ see_also mc4.1 = see_also m1
          ∧ kept_fields mc4.1 = kept_fields m1
          ∧ (mc4.2 = true ↔
             c1 = true ∨ is_Some ox ∨ is_Some os ∨ is_Some osu))
    as (Ht4 & Hs4 & Hk4 & Hc4).
  { subst mc4. rewrite !assign_if_given_flag. cbn [snd].
    split; [by destruct ox, os, osu|]. split; [by destruct ox, os, osu|].
    split; [by destruct ox, os, osu|]. tauto. }
  destruct mc4 as [m4 c4]. cbn [fst snd] in *.
  destruct (update_see_also_spec osa m4 c4) as [H5 Hc5].
  destruct (update_see_also osa (m4, c4)) as [m5 c5]. cbn [fst snd] in *.
  set (mc8 :=
         assign_if_given oi set_importance
           (assign_if_given ofl (λ f, set_source_file (Some f))
              (assign_if_given ou (λ u, set_source_url (Some u)) (m5, c5)))).
  assert (tags mc8.1 = tags m5 ∧ see_also mc8.1 = see_also m5
          ∧ kept_fields mc8.1 = kept_fields m5
          ∧ (mc8.2 = true ↔
             c5 = true ∨ is_Some ou ∨ is_Some ofl ∨ is_Some oi))
    as (Ht8 & Hs8 & Hk8 & Hc8).
  { subst mc8. rewrite !assign_if_given_flag. cbn [snd].
    split; [by destruct ou, ofl, oi|]. split; [by destruct ou, ofl, oi|].
    split; [by destruct ou, ofl, oi|]. tauto. }
  assert (tags m5 = tags m4
          ∧ see_also m5
            = see_also m4 ++ filter (λ s, s ∉ see_also m4) (default [] osa)
          ∧ kept_fields m5 = kept_fields m4) as (Ht5 & Hs5 & Hk5)
    by (by subst m5).
  assert (tags m1
          = (if cl then []
             else tags m0 ++ filter (λ t, t ∉ tags m0) (default [] ot))
          ∧ see_also m1 = see_also m0
          ∧ kept_fields m1 = kept_fields m0) as (Ht1 & Hs1 & Hk1)
    by (by subst m1).
  cbv zeta. rewrite Ht8, Hs8, Hk8, Hc8, Hc5, Hc4, Hc1, Hc0.
  rewrite Ht5, Hs5, Hk5, Ht4, Hs4, Hk4, Ht1, Hs1, Hk1, Ht0, Hs0, Hk0.
  split; [done|]. split; [done|]. split; [done|]. tauto.
Qed.

Lemma assign_if_given_idle {A} (value : option A) set mc :
  (assign_if_given value set mc).2 = false →
  assign_if_given value set mc = mc.
Proof. by destruct value. Qed.

Lemma update_tags_idle tag clear_tags mc :
  (update_tags tag clear_tags mc).2 = false →
  update_tags tag clear_tags mc = mc.
Proof.
  destruct mc as [m c]. intros Hf.
  destruct (update_tags_spec tag clear_tags m c) as [H1 H2].
  cbv zeta in *.
  destruct (update_tags tag clear_tags (m, c)) as [m' c'].
  cbn [fst snd] in *. subst c'.
  destruct H2 as [_ H2].
  assert (c = false ∧ clear_tags = false
          ∧ ∀ t, t ∈ default [] tag → ¬ (t ∉ tags m)) as (-> & -> & Hall).
  { destruct c; [exfalso; by discriminate H2; left|].
    destruct clear_tags; [exfalso; by discriminate H2; right; left|].
    split; [done|]. split; [done|]. intros t Ht Hout.
    exfalso. discriminate H2. right. right. by exists t. }
  rewrite H1, filter_none, app_nil_r, set_tags_same; [done|].
  by apply Forall_forall.
Qed.

Lemma update_see_also_idle see_also_opt mc :
  (update_see_also see_also_opt mc).2 = false →
  update_see_also see_also_opt mc = mc.
Proof.
  destruct mc as [m c]. intros Hf.
  destruct (update_see_also_spec see_also_opt m c) as [H1 H2].
  cbv zeta in *.
  destruct (update_see_also see_also_opt (m, c)) as [m' c'].
  cbn [fst snd] in *. subst c'.
  destruct H2 as [_ H2].
  assert (c = false
          ∧ ∀ s, s ∈ default [] see_also_opt → ¬ (s ∉ see_also m))
    as (-> & Hall).
  { destruct c; [exfalso; by discriminate H2; left|].
    split; [done|]. intros s Hs Hout.
    exfalso. discriminate H2. right. by exists s. }
  rewrite H1, filter_none, app_nil_r, set_see_also_same; [done|].
  by apply Forall_forall.
Qed.

(** When nothing sets the [changed] flag the record is untouched. *)
Lemma update_fields_idle o m :
  (update_fields o m).2 = false → (update_fields o m).1 = m.
Proof.
  unfold update_fields. cbv zeta. intros H.
  repeat first
    [ rewrite (assign_if_given_idle _ _ _ H) in H |- *
    | rewrite (update_see_also_idle _ _ H) in H |- *
    | rewrite (update_tags_idle _ _ _ H) in H |- * ].
  done.
Qed.

(** The command with only a content and tags is the command with all the
    other options left off. *)
Lemma update_is_update_command now memory_id content tag clear_tags db :
  update now memory_id content tag clear_tags db
  = update_command now memory_id
      (mkUpdateOptions content tag None clear_tags None None None None None
         None) db.
Proof.
  unfold update, update_command, update_fields. simpl.
  destruct (from_id db memory_id) as [memory|]; [|done].
  by destruct content.
Qed.

Lemma update_command_found now memory_id o db memory :
  db !! memory_id = Some memory →
  _id memory = memory_id →
  update_command now memory_id o db
  = Some (if (update_fields o memory).2
          then <[memory_id :=
                   set_updated_at (Some now) (update_fields o memory).1]> db
          else db).
Proof.
  intros Hm Hid. unfold update_command, from_id. rewrite Hm.
  destruct (update_fields_spec o memory) as (_ & _ & Hk & _).
  cbv zeta in Hk.
  destruct (update_fields o memory) as [m' changed]. cbn [fst snd] in *.
  destruct changed; [|done]. unfold save. simpl.
  assert (_id m' = memory_id) as -> by (unfold kept_fields in Hk; congruence).
  done.
Qed.

(** X8. On a stored memory, [update] leaves as tags: none under
    [--clear-tags], whatever [--tag] says; otherwise the old tags in their
    order followed by the [--tag] values the memory did not have, in the
    order given, a value given twice being appended twice. [see_also] grows
    in the same way by the [--see-also] ids the memory did not have. *)
Theorem update_appends_new_values now memory_id o db memory :
  db !! memory_id = Some memory →
  _id memory = memory_id →
  ∃ db' memory',
    update_command now memory_id o db = Some db'
    ∧ db' !! memory_id = Some memory'
    ∧ tags memory'
      = (if opt_clear_tags o then []
         else tags memory
              ++ filter (λ t, t ∉ tags memory) (default [] (opt_tag o)))
    ∧ see_also memory'
      = see_also memory
        ++ filter (λ s, s ∉ see_also memory) (default [] (opt_see_also o)).
Proof.
  intros Hm Hid. rewrite (update_command_found _ _ _ _ _ Hm Hid).
  destruct (update_fields_spec o memory) as (Ht & Hs & _ & _).
  pose proof (update_fields_idle o memory) as Hidle.
  cbv zeta in *. unfold updated_tags in Ht.
  destruct (update_fields o memory) as [m' changed]. cbn [fst snd] in *.
  destruct changed.
  - eexists _, _. split; [done|]. rewrite lookup_insert_eq.
    split; [done|]. by split.
  - rewrite (Hidle eq_refl) in Ht, Hs. exists db, memory. by repeat split.
Qed.

Lemma update_appends_new_values_witness :
  ∃ db' memory',
    update_command 60%N 1
      (mkUpdateOptions None (Some [py "old-tag"; py "x"; py "x"]) None false
         None None (Some [2; 2]) None None None) sample_db = Some db'
    ∧ db' !! 1 = Some memory'
    ∧ tags memory' = [py "old-tag"; py "x"; py "x"]
    ∧ see_also memory' = [2; 2].
Proof.
  destruct (update_appends_new_values 60%N 1
              (mkUpdateOptions None (Some [py "old-tag"; py "x"; py "x"])
                 None false None None (Some [2; 2]) None None None)
              sample_db probe eq_refl eq_refl)
    as (db' & memory' & Hdb & Hm & Ht & Hs).
  exists db', memory'. split; [exact Hdb|]. split; [exact Hm|].
  split; [rewrite Ht | rewrite Hs]; by vm_compute.
Defined.

(** X9. When the memory's tags are duplicate-free and the [--tag] values
    are distinct, [update] leaves duplicate-free tags. *)
Theorem update_keeps_tags_distinct now memory_id o db memory :
  db !! memory_id = Some memory →
  _id memory = memory_id →
  NoDup (tags memory) →
  NoDup (default [] (opt_tag o)) →
  ∃ db' memory',
    update_command now memory_id o db = Some db'
    ∧ db' !! memory_id = Some memory'
    ∧ NoDup (tags memory').
Proof.
  intros Hm Hid Hnd Hnew. rewrite (update_command_found _ _ _ _ _ Hm Hid).
  destruct (update_fields_spec o memory) as (Ht & _ & _ & _).
  pose proof (update_fields_idle o memory) as Hidle.
  cbv zeta in *. unfold updated_tags in Ht.
  assert (NoDup (tags (update_fields o memory).1)) as Hres.
  { rewrite Ht. destruct (opt_clear_tags o); [constructor|].
    apply NoDup_app. split; [done|]. split; [|by apply NoDup_filter].
    by intros t Hin [Hout _]%list_elem_of_filter. }
  destruct (update_fields o memory) as [m' changed]. cbn [fst snd] in *.
  destruct changed.
  - eexists _, _. split; [done|]. rewrite lookup_insert_eq. by split.
  - exists db, memory. by repeat split.
Qed.

Lemma update_keeps_tags_distinct_witness :
  ∃ db' memory',
    update_command 60%N 1
      (mkUpdateOptions None (Some [py "old-tag"; py "x"]) None false
         None None None None None None) sample_db = Some db'
    ∧ db' !! 1 = Some memory'
    ∧ NoDup (tags memory').
Proof.
  apply (update_keeps_tags_distinct 60%N 1
           (mkUpdateOptions None (Some [py "old-tag"; py "x"]) None false
              None None None None None None) sample_db probe eq_refl eq_refl).
  - vm_compute. apply NoDup_singleton.
  - simpl. apply NoDup_cons. split; [|apply NoDup_singleton].
    vm_compute. intros H. inversion H as [|? ? ? H']; subst. inversion H'.
Defined.

(** X10. [update] on an unknown id exits with status 1. On a stored memory
    it saves exactly when an assigning option is given (even with the value
    the memory already has), or [--clear-tags] (even when there is no tag),
    or a [--tag] or [--see-also] value the memory does not have: then the
    record is rewritten under the same id with the time of the save, its
    creation time and source kept, and no other record is touched;
    otherwise the database is left as it was. *)
Theorem update_saves_when_requested now memory_id o db :
  (db !! memory_id = None → update_command now memory_id o db = None)
  ∧ ∀ memory,
      db !! memory_id = Some memory →
      _id memory = memory_id →
      (update_requested o memory →
       ∃ memory',
         update_command now memory_id o db
           = Some (<[memory_id := memory']> db)
         ∧ updated_at memory' = Some now
         ∧ _id memory' = memory_id
         ∧ created_at memory' = created_at memory
         ∧ source memory' = source memory)
      ∧ (¬ update_requested o memory →
         update_command now memory_id o db = Some db).
Proof.
  split.
  { intros Hnone. unfold update_command, from_id. by rewrite Hnone. }
  intros memory Hm Hid. rewrite (update_command_found _ _ _ _ _ Hm Hid).
  destruct (update_fields_spec o memory) as (_ & _ & Hk & Hc).
  cbv zeta in *. unfold kept_fields in Hk.
  destruct (update_fields o memory) as [m' changed]. cbn [fst snd] in *.
  injection Hk as Hk1 Hk2 Hk3 Hk4. split.
  - intros Hreq. apply Hc in Hreq as ->. eexists. split; [done|].
    simpl. by rewrite Hk1, Hid.
  - intros Hno. destruct changed; [|done]. destruct Hno. by apply Hc.
Qed.

Lemma update_saves_when_requested_witness :
  (∃ memory',
     update_command 60%N 1
       (mkUpdateOptions (Some (content probe)) None None false None None None
          None None None) sample_db
     = Some (<[1 := memory']> sample_db)
     ∧ updated_at memory' = Some 60%N)
  ∧ update_command 60%N 1
      (mkUpdateOptions None (Some [py "old-tag"]) None false None None None
         None None None) sample_db
    = Some sample_db.
Proof.
  split.
  - destruct (update_saves_when_requested 60%N 1
                (mkUpdateOptions (Some (content probe)) None None false None
                   None None None None None) sample_db) as [_ H].
    destruct (H probe eq_refl eq_refl) as [Hyes _].
    destruct Hyes as (memory' & Hdb & Hu & _).
    + left. by eexists.
    + by exists memory'.
  - destruct (update_saves_when_requested 60%N 1
                (mkUpdateOptions None (Some [py "old-tag"]) None false None
                   None None None None None) sample_db) as [_ H].
    destruct (H probe eq_refl eq_refl) as [_ Hno]. apply Hno.
    unfold update_requested. simpl.
    intros [[? ?]|[?|[(t & Ht & Hout)|[[? ?]|[[? ?]|[[? ?]|[(s & Hs & _)|
             [[? ?]|[[? ?]|[? ?]]]]]]]]]]; try discriminate.
    + apply Hout. apply list_elem_of_singleton in Ht as ->.
      vm_compute. left.
    + by apply elem_of_nil in Hs.
Defined.

(** ** [remember]: the tags of a new memory *)

Lemma AUTO_TAG_PATTERNS_NoDup : NoDup AUTO_TAG_PATTERNS.*1.
Proof. apply (bool_decide_unpack _). by vm_compute. Qed.

Lemma auto_tag_NoDup re_search content : NoDup (_auto_tag re_search content).
Proof.
  unfold _auto_tag.
  eapply sublist_NoDup;
    [apply AUTO_TAG_PATTERNS_NoDup | apply fmap_sublist, sublist_filter].
Qed.

(** X11. The tags [remember] stores are the [--tag] values as given,
    followed by tags drawn from the names of [AUTO_TAG_PATTERNS], each at
    most once and none already among the [--tag] values; nothing is added
    without [--auto-tag] or [--suggest-tags]. So distinct [--tag] values
    give a duplicate-free tag list. *)
Theorem remember_tags_shape
    re_search add_them now content tag context source session auto_tag
    suggest_tags supersedes see_also source_url source_file importance quiet
    db :
  let memory :=
    (remember re_search add_them now content tag context source session
       auto_tag suggest_tags supersedes see_also source_url source_file
       importance quiet db).1 in
  ∃ added,
    tags memory = default [] tag ++ added
    ∧ NoDup added
    ∧ (∀ t, t ∈ added → (t ∉ default [] tag) ∧ t ∈ AUTO_TAG_PATTERNS.*1)
    ∧ (auto_tag = false → suggest_tags = false → added = [])
    ∧ (NoDup (default [] tag) → NoDup (tags memory)).
Proof.
  intros memory. subst memory. unfold remember. cbn [fst tags].
  set (user := default [] tag).
  set (suggested :=
         filter (λ t, t ∉ user) (_auto_tag re_search content)).
  assert (NoDup suggested) as Hnd
    by (apply NoDup_filter, auto_tag_NoDup).
  assert (∀ t, t ∈ suggested → (t ∉ user) ∧ t ∈ AUTO_TAG_PATTERNS.*1)
    as Hin.
  { intros t [Hout Ht]%list_elem_of_filter. split; [done|].
    unfold _auto_tag in Ht.
    apply list_elem_of_fmap in Ht as (tp & -> & [_ Htp]%list_elem_of_filter).
    by apply list_elem_of_fmap_2. }
  assert (∀ added, added = [] ∨ added = suggested →
            user ++ added = user ++ added
            ∧ NoDup added
            ∧ (∀ t, t ∈ added → (t ∉ user) ∧ t ∈ AUTO_TAG_PATTERNS.*1)
            ∧ (NoDup user → NoDup (user ++ added))) as Hcase.
  { intros added [->| ->].
    - rewrite app_nil_r. split; [done|]. split; [constructor|].
      split; [by intros t ?%elem_of_nil | done].
    - split; [done|]. split; [done|]. split; [done|]. intros Hu.
      apply NoDup_app. split; [done|]. split; [|done].
      intros t Ht Hs. by apply (Hin t Hs). }
  assert (∃ added,
            (added = [] ∨ added = suggested)
            ∧ remember_tags re_search add_them content tag auto_tag
                suggest_tags quiet = user ++ added
            ∧ (auto_tag = false → suggest_tags = false → added = []))
    as (added & Hor & -> & Hnone).
  { unfold remember_tags. fold user. fold suggested.
    destruct auto_tag, suggest_tags, (bool_decide (suggested = [])), quiet,
      add_them; cbn [orb andb negb];
      first
        [ exists suggested; split; [by right|]; split; [done|]; done
        | exists []; split; [by left|]; split; [by rewrite app_nil_r|];
          done ]. }
  exists added. destruct (Hcase added Hor) as (_ & H1 & H2 & H3).
  split; [done|]. split; [exact H1|]. split; [exact H2|].
  split; [exact Hnone | exact H3].
Qed.

(** X12. How [--suggest-tags] and [--auto-tag] combine. When the prompt of
    [--suggest-tags] is shown (not under [--quiet]) and declined, only the
    [--tag] values are stored, even if [--auto-tag] was given as well.
    Under [--quiet] the prompt is never shown: [--suggest-tags] alone then
    adds nothing, and [--auto-tag] adds its tags without asking. *)
Theorem remember_declined_suggestions
    re_search content tag auto_tag :
  remember_tags re_search false content tag auto_tag true false
    = default [] tag
  ∧ remember_tags re_search false content tag false true true
    = default [] tag
  ∧ ∀ add_them suggest_tags,
      remember_tags re_search add_them content tag true suggest_tags true
      = default [] tag
        ++ filter (λ t, t ∉ default [] tag) (_auto_tag re_search content).
Proof.
  unfold remember_tags. split; [|split].
  - rewrite orb_true_r. cbn [negb andb].
    destruct (decide (filter (λ t, t ∉ default [] tag)
                        (_auto_tag re_search content) = [])) as [He|Hne].
    + rewrite He, bool_decide_eq_true_2 by done. simpl.
      destruct auto_tag; by rewrite ?app_nil_r.
    + by rewrite bool_decide_eq_false_2.
  - simpl. by rewrite andb_false_r.
  - intros add_them suggest_tags. cbn [orb]. by rewrite andb_false_r.
Qed.

(** ** [forget] *)

Lemma elem_of_query_all db m :
  m ∈ query_all db ↔ ∃ i, db !! i = Some m.
Proof.
  unfold query_all. rewrite list_elem_of_fmap. split.
  - intros ([i m'] & -> & Hin). exists i.
    rewrite merge_sort_Permutation in Hin. by apply elem_of_map_to_list.
  - intros [i Hi]. exists (i, m). split; [done|].
    rewrite merge_sort_Permutation. by apply elem_of_map_to_list.
Qed.

(** X13. Bulk [forget --tag] on a database whose records carry their own
    ids. With [--confirm], or a prompt answered yes, or when no memory has
    the tag (no prompt is then shown), the command returns and the database
    it leaves holds exactly the records that did not have the tag, each as
    it was. With neither [--confirm] nor a yes, and some memory having the
    tag, the command aborts. *)
Theorem forget_by_tag answer tag confirm db :
  consistent db →
  (confirm = true ∨ answer = true
   ∨ (∀ m, m ∈ query_all db → tag ∉ tags m) →
   ∃ db',
     forget answer None (Some tag) confirm db
       = ForgetDone db' (filter (λ m, tag ∈ tags m) (query_all db))
     ∧ ∀ i, db' !! i
            = db !! i ≫= λ m, if decide (tag ∈ tags m) then None else Some m)
  ∧ (confirm = false → answer = false →
     (∃ m, m ∈ query_all db ∧ tag ∈ tags m) →
     forget answer None (Some tag) confirm db = ForgetAborted).
Proof.
  intros Hc. unfold forget.
  set (to_delete := filter (λ m, tag ∈ tags m) (query_all db)).
  assert (∀ i, foldl (λ db m, delete_memory m db) db to_delete !! i
               = db !! i ≫= λ m,
                   if decide (tag ∈ tags m) then None else Some m) as Hdel.
  { intros i. rewrite foldl_delete_lookup.
    destruct (decide (i ∈ _id <$> to_delete)) as [Hin|Hout].
    - apply list_elem_of_fmap in Hin as (m & -> & Hm).
      apply list_elem_of_filter in Hm as [Ht Hm].
      apply elem_of_query_all in Hm as [j Hj].
      rewrite (Hc _ _ Hj), Hj. simpl. by rewrite decide_True.
    - destruct (db !! i) as [m|] eqn:Hi; [|done]. simpl.
      destruct (decide (tag ∈ tags m)) as [Ht|Ht]; [|done].
      destruct Hout. apply list_elem_of_fmap. exists m.
      split; [by rewrite (Hc _ _ Hi)|].
      apply list_elem_of_filter. split; [done|].
      apply elem_of_query_all. by exists i. }
  split.
  - intros Hok. destruct to_delete as [|m0 rest] eqn:Hto.
    + exists db. split; [done|]. intros i. rewrite <- Hdel. done.
    + destruct (negb confirm && negb answer) eqn:Hask.
      * destruct Hok as [->|[->|Hnone]]; [done | by destruct confirm |].
        assert (m0 ∈ to_delete) as Hm0 by (rewrite Hto; by left).
        apply list_elem_of_filter in Hm0 as [Ht Hm0]. by destruct (Hnone m0).
      * eexists. split; [done|]. exact Hdel.
  - intros -> -> (m & Hm & Ht).
    assert (m ∈ to_delete) as Hin by (by apply list_elem_of_filter).
    destruct to_delete; [by apply elem_of_nil in Hin | done].
Qed.

Lemma sample_db_consistent : consistent sample_db.
Proof.
  intros i m Hi. unfold sample_db in Hi.
  apply elem_of_list_to_map_2 in Hi.
  rewrite !elem_of_cons, elem_of_nil in Hi.
  destruct Hi as [[= -> ->]|[[= -> ->]|[[= -> ->]|[]]]]; reflexivity.
Defined.

Lemma forget_by_tag_witness :
  ∃ db',
    forget false None (Some (py "old-tag")) true sample_db
      = ForgetDone db' [probe]
    ∧ db' !! 1 = None ∧ db' !! 2 = Some twin.
Proof.
  pose proof sample_db_consistent as Hc.
  destruct (forget_by_tag false (py "old-tag") true sample_db Hc)
    as [Hdone _].
  destruct Hdone as (db' & Hf & Hl); [by left|].
  exists db'. split; [exact Hf|]. split; rewrite Hl; by vm_compute.
Defined.

(** X14. [forget] with an id needs no confirmation and ignores [--tag]:
    on a stored memory it returns having deleted that record and no other;
    on an unknown id, and when neither an id nor a tag is given, it exits
    with status 1. *)
Theorem forget_by_id answer memory_id tag confirm db :
  forget answer None None confirm db = ForgetExit
  ∧ (db !! memory_id = None →
     forget answer (Some memory_id) tag confirm db = ForgetExit)
  ∧ ∀ memory,
      db !! memory_id = Some memory →
      _id memory = memory_id →
      ∃ db',
        forget answer (Some memory_id) tag confirm db
          = ForgetDone db' [memory]
        ∧ db' !! memory_id = None
        ∧ (∀ j, j ≠ memory_id → db' !! j = db !! j)
        ∧ size db = S (size db').
Proof.
  split; [done|]. unfold forget, from_id. split.
  - intros ->. by destruct tag.
  - intros memory Hm Hid. rewrite Hm. exists (delete memory_id db).
    unfold delete_memory. rewrite Hid.
    split; [by destruct tag|]. split; [apply lookup_delete_eq|].
    split; [intros j Hj; by apply lookup_delete_ne|].
    rewrite map_size_delete, Hm.
    assert (size db ≠ 0)%nat; [|lia].
    apply map_size_non_empty_iff. intros ->. by rewrite lookup_empty in Hm.
Qed.

Lemma forget_by_id_witness :
  ∃ db',
    forget false (Some 1) (Some (py "new-tag")) false sample_db
      = ForgetDone db' [probe]
    ∧ db' !! 1 = None.
Proof.
  destruct (forget_by_id false 1 (Some (py "new-tag")) false sample_db)
    as (_ & _ & H).
  destruct (H probe eq_refl eq_refl) as (db' & Hf & Hgone & _).
  by exists db'.
Defined.

(** ** [tags list] and [stats] *)

Lemma tag_counts_flat (acc : gmap str Z) memories :
  foldl (λ counts m,
           foldl (λ counts t, <[t := default 0 (counts !! t) + 1]> counts)
                 counts (tags m))
        acc memories
  = foldl (λ counts t, <[t := default 0 (counts !! t) + 1]> counts)
          acc (concat (tags <$> memories)).
Proof.
  revert acc. induction memories as [|m memories IH]; intros acc; simpl;
    [done|].
  by rewrite IH, foldl_app.
Qed.

Lemma count_foldl_lookup (l : list str) (acc : gmap str Z) (t : str) :
  foldl (λ counts t, <[t := default 0 (counts !! t) + 1]> counts) acc l !! t
  = if decide (length (filter (λ x, x = t) l) = 0%nat) then acc !! t
    else Some (default 0 (acc !! t)
               + Z.of_nat (length (filter (λ x, x = t) l))).
Proof.
  revert acc. induction l as [|x l IH]; intros acc; simpl; [done|].
  rewrite IH. destruct (decide (x = t)) as [->|Hne].
  - rewrite filter_cons_True by done. simpl.
    rewrite lookup_insert_eq. simpl.
    destruct (decide (length (filter (λ x, x = t) l) = 0%nat)) as [->|_].
    + f_equal; lia.
    + f_equal; lia.
  - rewrite filter_cons_False by done. by rewrite lookup_insert_ne.
Qed.

Lemma tag_counts_lookup memories t :
  tag_counts memories !! t
  = if decide (occurrences t memories = 0%nat) then None
    else Some (Z.of_nat (occurrences t memories)).
Proof.
  unfold tag_counts, occurrences.
  rewrite tag_counts_flat, count_foldl_lookup, lookup_empty. simpl.
  by destruct (decide _).
Qed.

Lemma elem_of_concat {A} (x : A) (ls : list (list A)) :
  x ∈ concat ls ↔ ∃ l, x ∈ l ∧ l ∈ ls.
Proof.
  induction ls as [|l ls IH]; simpl.
  - split; [by intros ?%elem_of_nil | by intros (l & _ & ?%elem_of_nil)].
  - rewrite elem_of_app, IH. split.
    + intros [Hx|(l' & Hx & Hl')].
      * exists l. split; [done | by left].
      * exists l'. split; [done | by right].
    + intros (l' & Hx & [->|Hl']%elem_of_cons); [by left|].
      right. by exists l'.
Qed.

Lemma occurrences_zero t memories :
  occurrences t memories = 0%nat ↔ ∀ m, m ∈ memories → t ∉ tags m.
Proof.
  unfold occurrences. rewrite length_zero_iff_nil. split.
  - intros Hnil m Hm Ht.
    eapply (filter_nil_not_elem_of _ _ t Hnil); [done|].
    apply elem_of_concat. exists (tags m). split; [done|].
    by apply list_elem_of_fmap_2.
  - intros Hall. apply filter_none. apply Forall_forall.
    intros x Hx ->. apply elem_of_concat in Hx as (ts & Ht & Hts).
    apply list_elem_of_fmap in Hts as (m & -> & Hm). by apply (Hall m).
Qed.

(** X15. The counts shown by [tags list] and [stats]: a tag is counted as
    often as it occurs among the tags of all memories, and a tag no memory
    has is not listed; [memory_count] is the number of records, and
    [tag_count] the number of distinct tags. *)
Theorem stats_counts db t :
  stats_tags (stats db) !! t
    = (if decide (occurrences t (query_all db) = 0%nat) then None
       else Some (Z.of_nat (occurrences t (query_all db))))
  ∧ (stats_tags (stats db) !! t = None ↔
     ∀ i m, db !! i = Some m → t ∉ tags m)
  ∧ memory_count (stats db) = size db
  ∧ tag_count (stats db)
    = size (list_to_set (concat (tags <$> query_all db)) : gset str)
  ∧ ∀ sorted, tags_list sorted true db = TagsJson (stats_tags (stats db)).
Proof.
  unfold stats. cbn [stats_tags memory_count tag_count].
  split; [apply tag_counts_lookup|]. split.
  { rewrite tag_counts_lookup. split.
    - intros Hnone i m Hi. destruct (decide _) as [Hz|]; [|done].
      apply (proj1 (occurrences_zero _ _) Hz). apply elem_of_query_all.
      by exists i.
    - intros Hall. rewrite decide_True; [done|]. apply occurrences_zero.
      intros m [i Hi]%elem_of_query_all. by apply (Hall i). }
  split; [apply query_all_length|]. split; [|done].
  rewrite <- size_dom. f_equal. apply set_eq. intros x.
  rewrite elem_of_dom, elem_of_list_to_set, tag_counts_lookup.
  destruct (decide (occurrences x (query_all db) = 0%nat)) as [Hz|Hnz].
  - split; [by intros [? ?]|]. intros Hx. exfalso.
    apply elem_of_concat in Hx as (ts & Hx & Hts).
    apply list_elem_of_fmap in Hts as (m & -> & Hm).
    by apply (proj1 (occurrences_zero _ _) Hz m).
  - split; [|by eexists]. intros _.
    destruct (decide (x ∈ concat (tags <$> query_all db))) as [|Hout];
      [done|].
    destruct Hnz. apply occurrences_zero. intros m Hm Hx. apply Hout.
    apply elem_of_concat. exists (tags m). split; [done|].
    by apply list_elem_of_fmap_2.
Qed.

(** X16. Without [--json], [tags list] prints "No tags found." exactly
    when no stored memory has a tag. *)
Theorem tags_list_empty sorted db :
  tags_list sorted false db = NoTagsFound ↔
  ∀ i m, db !! i = Some m → tags m = [].
Proof.
  unfold tags_list. cbv zeta.
  destruct (decide (tag_counts (query_all db) = ∅)) as [He|Hne].
  - split; [|done]. intros _ i m Hi.
    destruct (tags m) as [|t ts] eqn:Ht; [done|]. exfalso.
    assert (tag_counts (query_all db) !! t = None) as Hl
      by (by rewrite He, lookup_empty).
    rewrite tag_counts_lookup in Hl.
    destruct (decide _) as [Hz|]; [|done].
    apply (proj1 (occurrences_zero _ _) Hz m).
    + apply elem_of_query_all. by exists i.
    + rewrite Ht. by left.
  - split; [done|]. intros Hall. destruct Hne.
    apply map_eq. intros t. rewrite lookup_empty, tag_counts_lookup.
    rewrite decide_True; [done|]. apply occurrences_zero.
    intros m [i Hi]%elem_of_query_all. rewrite (Hall i m Hi).
    apply not_elem_of_nil.
Qed.

(** ** [recall] and [list] *)

Lemma slice_to_sublist {A} (limit : Z) (l : list A) :
  slice_to limit l `sublist_of` l.
Proof. unfold slice_to. destruct (0 <=? limit); apply sublist_take. Qed.

Lemma slice_to_length {A} (limit : Z) (l : list A) :
  length (slice_to limit l)
  = if 0 <=? limit then Nat.min (Z.to_nat limit) (length l)
    else (length l - Z.to_nat (- limit))%nat.
Proof.
  unfold slice_to. destruct (0 <=? limit); rewrite length_take; lia.
Qed.

Lemma slice_to_StronglySorted {A} (R : relation A) (limit : Z) (l : list A) :
  StronglySorted R l → StronglySorted R (slice_to limit l).
Proof.
  intros Hl. unfold slice_to.
  destruct (0 <=? limit);
    [rewrite <- (take_drop (Z.to_nat limit) l) in Hl
    |rewrite <- (take_drop (length l - Z.to_nat (- limit)) l) in Hl];
    by apply StronglySorted_app_1_l in Hl.
Qed.

Lemma elem_of_apply_filters tag session min_importance memories m :
  m ∈ apply_filters tag session min_importance memories
  ↔ m ∈ memories ∧ passes_filters tag session min_importance m.
Proof.
  unfold apply_filters, passes_filters.
  set (l1 := match tag with
             | Some ((_ :: _) as tag) =>
                 filter (λ m, Exists (λ t, t ∈ tags m) tag) memories
             | _ => memories
             end).
  assert (m ∈ l1 ↔ m ∈ memories
          ∧ ∀ t0 ts, tag = Some (t0 :: ts) →
                     ∃ t, t ∈ t0 :: ts ∧ t ∈ tags m) as H1.
  { subst l1. destruct tag as [[|t0 ts]|].
    - split; [intros ?; split; [done|]; by intros ? ? [=] | by intros [? _]].
    - rewrite list_elem_of_filter, Exists_exists. split.
      + intros [Hex ?]. split; [done|]. intros ? ? [= <- <-]. exact Hex.
      + intros [? Hex]. split; [exact (Hex _ _ eq_refl) | done].
    - split; [intros ?; split; [done|]; by intros ? ? [=] | by intros [? _]]. }
  set (l2 := match session with
             | Some ((_ :: _) as session) =>
                 filter (λ m, session_id m = Some session) l1
             | _ => l1
             end).
  assert (m ∈ l2 ↔ m ∈ l1
          ∧ ∀ c cs, session = Some (c :: cs) →
                    session_id m = Some (c :: cs)) as H2.
  { subst l2. destruct session as [[|c cs]|].
    - split; [intros ?; split; [done|]; by intros ? ? [=] | by intros [? _]].
    - rewrite list_elem_of_filter. split.
      + intros [Hs ?]. split; [done|]. by intros ? ? [= <- <-].
      + intros [? Hs]. split; [by apply Hs | done].
    - split; [intros ?; split; [done|]; by intros ? ? [=] | by intros [? _]]. }
  assert (m ∈ match min_importance with
              | Some n =>
                  if n =? 0 then l2
                  else filter (λ m, n ≤ importance m) l2
              | None => l2
              end
          ↔ m ∈ l2
            ∧ ∀ n, min_importance = Some n → n ≠ 0 → n ≤ importance m)
    as H3.
  { destruct min_importance as [n|].
    - destruct (Z.eqb_spec n 0) as [->|Hn].
      + split; [intros ?; split; [done|]; by intros ? [= <-] ? | by intros [? _]].
      + rewrite list_elem_of_filter. split.
        * intros [Hle ?]. split; [done|]. by intros ? [= <-] _.
        * intros [? Hle]. split; [by apply Hle | done].
    - split; [intros ?; split; [done|]; by intros ? [=] | by intros [? _]]. }
  rewrite H3, H2, H1. tauto.
Qed.

Lemma insert_sorted_perm {A} (before : A → A → bool) x sorted :
  insert_sorted before x sorted ≡ₚ x :: sorted.
Proof.
  induction sorted as [|y rest IH]; simpl; [done|].
  destruct (before y x); [|done]. rewrite IH. apply Permutation_swap.
Qed.

Lemma sort_stable_perm {A} (before : A → A → bool) l :
  sort_stable before l ≡ₚ l.
Proof.
  induction l as [|x l IH]; simpl; [done|].
  by rewrite insert_sorted_perm, IH.
Qed.

(** Sorting by a comparison that refines a transitive order [R] both ways
    gives a list in that order. *)
Lemma sort_stable_StronglySorted {A} (before : A → A → bool)
    (R : relation A) `{!Transitive R} l :
  (∀ a b, before a b = true → R a b) →
  (∀ a b, before a b = false → R b a) →
  StronglySorted R (sort_stable before l).
Proof.
  intros Hyes Hno. induction l as [|x l IH]; simpl; [constructor|].
  revert IH. generalize (sort_stable before l). clear l.
  induction l as [|y rest IHrest]; intros Hs; simpl.
  - by repeat constructor.
  - apply StronglySorted_cons in Hs as [Hy Hrest].
    destruct (before y x) eqn:Hb.
    + apply StronglySorted_cons. split; [|by apply IHrest].
      rewrite insert_sorted_perm. constructor; [by apply Hyes | done].
    + apply StronglySorted_cons. split.
      * constructor; [by apply Hno|].
        eapply Forall_impl; [exact Hy|]. intros z Hz. simpl in Hz.
        etrans; [by apply Hno | done].
      * by apply StronglySorted_cons.
Qed.

Lemma sort_newest_first_stable group :
  sort_newest_first group
  = sort_stable (λ a b, (sort_key b <? sort_key a)%N) group.
Proof.
  unfold sort_newest_first, sort_stable.
  induction group as [|m group IH]; simpl; [done|]. rewrite IH.
  generalize (foldr (insert_sorted (λ a b, (sort_key b <? sort_key a)%N))
                [] group).
  intros l. induction l as [|x rest IHl]; simpl; [done|].
  by rewrite IHl.
Qed.

Lemma sort_newest_first_StronglySorted group :
  StronglySorted (λ a b, (sort_key b ≤ sort_key a)%N)
                 (sort_newest_first group).
Proof.
  rewrite sort_newest_first_stable.
  apply sort_stable_StronglySorted.
  - intros a b c ? ?. lia.
  - intros a b Hb. apply N.ltb_lt in Hb. lia.
  - intros a b Hb. apply N.ltb_ge in Hb. lia.
Qed.

(** [recall], once the search has answered. *)
Lemma recall_returned
    search search_ranked query tag limit show_score recent_first session
    min_importance boost_important memories scores :
  recall search search_ranked query tag limit show_score recent_first
    session min_importance boost_important = Returned (memories, scores) →
  ∃ candidates all_scores,
    recall_candidates search search_ranked query limit show_score
      boost_important candidates
    ∧ (show_score || boost_important = true →
       ∃ ranked_results,
         search_ranked query (limit * 2) = Returned ranked_results
         ∧ candidates = model <$> ranked_results
         ∧ all_scores = Some (score_dict ranked_results))
    ∧ (show_score || boost_important = false → all_scores = None)
    ∧ scores = (if show_score then all_scores else None)
    ∧ memories
      = slice_to limit
          (let filtered :=
             apply_filters tag session min_importance candidates in
           if recent_first then sort_newest_first filtered
           else match all_scores with
                | Some scores =>
                    if boost_important && negb (bool_decide (scores = ∅))
                    then sort_stable (boost_before scores) filtered
                    else filtered
                | None => filtered
                end).
Proof.
  unfold recall, recall_candidates.
  destruct (show_score || boost_important) eqn:Hb.
  - destruct (search_ranked query (limit * 2)) as [rr|e]; [|done].
    intros [= <- <-]. exists (model <$> rr), (Some (score_dict rr)).
    split; [by exists rr|]. split; [intros _; by exists rr|].
    by repeat split.
  - destruct (search query (limit * 2)) as [ms|e]; [|done].
    intros [= <- <-]. exists ms, None. by repeat split.
Qed.

(** X17. Every memory [recall] outputs was in the answer of the search it
    made and passes each filter given: it has one of the [--tag] values,
    is of the [--session], and is at least [--min-importance] important. *)
Theorem recall_results_pass_filters
    search search_ranked query tag limit show_score recent_first session
    min_importance boost_important memories scores :
  recall search search_ranked query tag limit show_score recent_first
    session min_importance boost_important = Returned (memories, scores) →
  ∃ candidates,
    recall_candidates search search_ranked query limit show_score
      boost_important candidates
    ∧ ∀ m, m ∈ memories →
        m ∈ candidates ∧ passes_filters tag session min_importance m.
Proof.
  intros (candidates & all_scores & Hc & _ & _ & _ & ->)%recall_returned.
  exists candidates. split; [done|]. intros m Hm.
  apply (λ H, elem_of_sublist _ _ _ H (slice_to_sublist _ _)) in Hm.
  cbv zeta in Hm.
  apply elem_of_apply_filters.
  destruct recent_first; [by rewrite sort_newest_first_perm in Hm|].
  destruct all_scores as [sc|]; [|done].
  destruct (boost_important && negb (bool_decide (sc = ∅))); [|done].
  by rewrite sort_stable_perm in Hm.
Qed.

Lemma recall_results_pass_filters_witness :
  ∃ memories scores,
    recall (λ _ _, Returned [probe; twin; other]) search_twin (py "API")
      (Some [py "new-tag"]) 10 false false None None false
    = Returned (memories, scores)
    ∧ ∀ m, m ∈ memories → py "new-tag" ∈ tags m.
Proof.
  eexists _, _. split; [reflexivity|].
  destruct (recall_results_pass_filters
              (λ _ _, Returned [probe; twin; other]) search_twin (py "API")
              (Some [py "new-tag"]) 10 false false None None false
              _ _ eq_refl) as (candidates & _ & Hall).
  intros m Hm. destruct (Hall m Hm) as [_ [Htag _]].
  destruct (Htag _ _ eq_refl) as (t & Ht & Hin).
  by apply list_elem_of_singleton in Ht as ->.
Defined.

(** X18. [recall] outputs at most [--limit] memories when the limit is not
    negative. A negative limit does not give an empty result: the slice
    then drops that many memories from the end of the filtered and sorted
    candidates. The scores reach the output only with [--show-score]. *)
Theorem recall_limit
    search search_ranked query tag limit show_score recent_first session
    min_importance boost_important memories scores :
  recall search search_ranked query tag limit show_score recent_first
    session min_importance boost_important = Returned (memories, scores) →
  (0 ≤ limit → (length memories ≤ Z.to_nat limit)%nat)
  ∧ (limit < 0 →
     ∃ candidates,
       recall_candidates search search_ranked query limit show_score
         boost_important candidates
       ∧ length memories
         = (length (apply_filters tag session min_importance candidates)
            - Z.to_nat (- limit))%nat)
  ∧ (show_score = false → scores = None)
  ∧ (show_score = true →
     ∃ ranked_results,
       search_ranked query (limit * 2) = Returned ranked_results
       ∧ scores = Some (score_dict ranked_results)).
Proof.
  intros (candidates & all_scores & Hc & Hyes & _ & -> & ->)%recall_returned.
  rewrite slice_to_length. split; [|split; [|split]].
  - intros Hl. destruct (Z.leb_spec 0 limit); lia.
  - intros Hl. exists candidates. split; [done|].
    destruct (Z.leb_spec 0 limit); [lia|]. f_equal. cbv zeta.
    apply Permutation_length.
    destruct recent_first; [apply sort_newest_first_perm|].
    destruct all_scores as [sc|]; [|done].
    destruct (boost_important && negb (bool_decide (sc = ∅))); [|done].
    apply sort_stable_perm.
  - by intros ->.
  - intros ->. destruct (Hyes eq_refl) as (rr & Hs & _ & ->). by exists rr.
Qed.

Lemma recall_limit_witness :
  ∃ memories scores,
    recall (λ _ _, Returned [probe; twin; other]) search_twin (py "API")
      None (-1) false false None None false
    = Returned (memories, scores)
    ∧ length memories = 2%nat.
Proof.
  eexists _, _. split; [reflexivity|].
  destruct (recall_limit
              (λ _ _, Returned [probe; twin; other]) search_twin (py "API")
              None (-1) false false None None false _ _ eq_refl)
    as (_ & Hneg & _).
  destruct Hneg as (candidates & Hc & ->); [lia|].
  unfold recall_candidates in Hc. simpl in Hc. injection Hc as <-.
  reflexivity.
Defined.

Lemma score_dict_empty ranked_results :
  score_dict ranked_results = ∅ → ranked_results = [].
Proof.
  unfold score_dict. generalize (∅ : gmap Z Q) at 1.
  induction ranked_results as [|r rest IH] using rev_ind; intros acc;
    [done|].
  rewrite foldl_app. simpl. intros He.
  by apply insert_non_empty in He.
Qed.

Global Instance boost_order_transitive scores :
  Transitive (boost_order scores).
Proof.
  intros a b c [Hab|[Hab Hsab]] [Hbc|[Hbc Hsbc]]; unfold boost_order.
  - left. lia.
  - left. lia.
  - left. lia.
  - right. split; [lia|]. by eapply Qle_trans.
Qed.

(** X19. The order of what [recall] outputs. With [--recent-first] it is
    newest first by [created_at] (a memory without one counting as created
    at [datetime.min]), whatever [--boost-important] says. With
    [--boost-important] alone it is by importance, highest first, and by
    score, best first, among memories of the same importance. With neither
    the memories keep the order of the search answer. *)
Theorem recall_order
    search search_ranked query tag limit show_score recent_first session
    min_importance boost_important memories scores :
  recall search search_ranked query tag limit show_score recent_first
    session min_importance boost_important = Returned (memories, scores) →
  (recent_first = true →
   StronglySorted
     (λ a b, (default datetime_min (created_at b)
              ≤ default datetime_min (created_at a))%N) memories)
  ∧ (recent_first = false → boost_important = true →
     ∃ ranked_results,
       search_ranked query (limit * 2) = Returned ranked_results
       ∧ StronglySorted (boost_order (score_dict ranked_results)) memories)
  ∧ (recent_first = false → boost_important = false →
     ∃ candidates,
       recall_candidates search search_ranked query limit show_score
         boost_important candidates
       ∧ memories `sublist_of` candidates).
Proof.
  intros (candidates & all_scores & Hc & Hyes & Hno & _ & ->)%recall_returned.
  split; [|split].
  - intros ->.
    apply slice_to_StronglySorted, sort_newest_first_StronglySorted.
  - intros -> ->. rewrite orb_true_r in Hyes.
    destruct (Hyes eq_refl) as (rr & Hs & -> & ->). exists rr.
    split; [done|]. apply slice_to_StronglySorted. cbv zeta. cbn [andb].
    destruct (decide (score_dict rr = ∅)) as [He|Hne].
    + apply score_dict_empty in He as ->. rewrite bool_decide_eq_true_2 by done.
      simpl. unfold apply_filters.
      destruct tag as [[|? ?]|], session as [[|? ?]|],
        min_importance as [mi|]; simpl; try destruct (mi =? 0);
        rewrite ?filter_nil; constructor.
    + rewrite bool_decide_eq_false_2 by done. simpl.
      apply sort_stable_StronglySorted; [apply _|..].
      * intros a b Hb. unfold boost_before in Hb. unfold boost_order.
        apply orb_true_iff in Hb as [Hb|Hb].
        -- left. by apply Z.ltb_lt in Hb.
        -- apply andb_true_iff in Hb as [Hi Hq]. apply Z.eqb_eq in Hi.
           right. split; [done|]. apply negb_true_iff in Hq.
           apply Qlt_le_weak, Qnot_le_lt. intros Hle.
           apply Qle_bool_iff in Hle. congruence.
      * intros a b Hb. unfold boost_before in Hb. unfold boost_order.
        apply orb_false_iff in Hb as [Hb1 Hb2]. apply Z.ltb_ge in Hb1.
        destruct (Z.eqb_spec (importance a) (importance b)) as [Heq|Hne'].
        -- right. split; [done|]. simpl in Hb2.
           apply negb_false_iff in Hb2. by apply Qle_bool_iff.
        -- left. lia.
  - intros -> ->. exists candidates. split; [done|]. cbv zeta.
    etrans; [apply slice_to_sublist|].
    assert (apply_filters tag session min_importance candidates
              `sublist_of` candidates) as Hsub.
    { unfold apply_filters.
      destruct tag as [[|? ?]|], session as [[|? ?]|],
        min_importance as [mi|]; simpl; try destruct (mi =? 0);
        repeat (etrans; [apply sublist_filter|]); done. }
    destruct all_scores as [sc|]; [|done]. by cbn [andb].
Qed.

(** Two runs over the same ranked answer, record 1 (older, better score)
    before record 2 (newer, here made more important). With
    [--recent-first] and [--boost-important] the newer record 2 comes
    first; so it does with [--boost-important] alone, by its importance;
    with neither flag the order of the answer is kept. *)
Lemma recall_order_witness :
  let important_twin := set_importance 5 twin in
  let search_ranked :=
    search_in [mkResult probe (-9 # 1); mkResult important_twin (-6 # 1)] in
  let search := λ (_ : str) (_ : Z), Returned [probe; important_twin] in
  created_at probe = Some 10%N
  ∧ created_at important_twin = Some 20%N
  ∧ recall search search_ranked (py "API") None 10 false true None None true
    = Returned ([important_twin; probe], None)
  ∧ StronglySorted
      (λ a b, (default datetime_min (created_at b)
               ≤ default datetime_min (created_at a))%N)
      [important_twin; probe]
  ∧ recall search search_ranked (py "API") None 10 false false None None true
    = Returned ([important_twin; probe], None)
  ∧ recall search search_ranked (py "API") None 10 false false None None
      false
    = Returned ([probe; important_twin], None)
  ∧ [probe; important_twin] `sublist_of` [probe; important_twin].
Proof.
  intros important_twin search_ranked search.
  assert (recall search search_ranked (py "API") None 10 false true None
            None true
          = Returned ([important_twin; probe], None)) as Hrecent
    by (by vm_compute).
  assert (recall search search_ranked (py "API") None 10 false false None
            None false
          = Returned ([probe; important_twin], None)) as Hplain
    by (by vm_compute).
  split; [reflexivity|]. split; [reflexivity|]. split; [exact Hrecent|].
  split.
  - destruct (recall_order _ _ _ _ _ _ _ _ _ _ _ _ Hrecent) as (H & _).
    by apply H.
  - split; [by vm_compute|]. split; [exact Hplain|].
    destruct (recall_order _ _ _ _ _ _ _ _ _ _ _ _ Hplain)
      as (_ & _ & H).
    destruct (H eq_refl eq_refl) as (candidates & Hc & Hsub).
    simpl in Hc. injection Hc as <-. exact Hsub.
Defined.

(** X20. [list] exits with status 1 on a [--since] date that
    [datetime.fromisoformat] rejects; an absent or empty [--since] is no
    date at all. Otherwise every memory it outputs was fetched from the
    store and passes each filter given, the fetched order is kept, and at
    most [--limit] memories are output when the limit is not negative. *)
Theorem list_memories_result
    fromisoformat fetch tag since limit session min_importance :
  (∀ c cs, since = Some (c :: cs) → fromisoformat (c :: cs) = None →
           list_memories fromisoformat fetch tag since limit session
             min_importance = None)
  ∧ ∀ memories,
      list_memories fromisoformat fetch tag since limit session
        min_importance = Some memories →
      let since_dt :=
        since ≫= λ s, match s with [] => None | _ => fromisoformat s end in
      memories `sublist_of` fetch since_dt (limit * 2)
      ∧ (∀ m, m ∈ memories → passes_filters tag session min_importance m)
      ∧ (0 ≤ limit → (length memories ≤ Z.to_nat limit)%nat).
Proof.
  split.
  { intros c cs -> Hp. unfold list_memories. by rewrite Hp. }
  intros memories Hl since_dt. unfold list_memories in Hl.
  assert (memories
          = slice_to limit
              (apply_filters tag session min_importance
                 (fetch since_dt (limit * 2)))) as ->.
  { subst since_dt. destruct since as [[|c cs]|]; simpl in *.
    - by injection Hl as <-.
    - destruct (fromisoformat (c :: cs)); [|done]. by injection Hl as <-.
    - by injection Hl as <-. }
  split; [|split].
  - etrans; [apply slice_to_sublist|]. unfold apply_filters.
    destruct tag as [[|? ?]|], session as [[|? ?]|],
      min_importance as [mi|]; simpl; try destruct (mi =? 0);
      repeat (etrans; [apply sublist_filter|]); done.
  - intros m Hm.
    apply (λ H, elem_of_sublist _ _ _ H (slice_to_sublist _ _)) in Hm.
    by apply elem_of_apply_filters in Hm as [_ ?].
  - intros Hlim. rewrite slice_to_length.
    destruct (Z.leb_spec 0 limit); lia.
Qed.

Lemma list_memories_result_witness :
  ∃ memories,
    list_memories (λ _, Some 15%N) (λ _ _, [probe; twin; other]) None
      (Some (py "2024-01-01")) 2 None (Some 3) = Some memories
    ∧ (length memories ≤ 2)%nat.
Proof.
  eexists. split; [reflexivity|].
  destruct (list_memories_result (λ _, Some 15%N)
              (λ _ _, [probe; twin; other]) None (Some (py "2024-01-01")) 2
              None (Some 3)) as [_ H].
  destruct (H _ eq_refl) as (_ & _ & Hlen). apply Hlen. lia.
Defined.

(** ** [_output_memories] *)

Lemma table_content_length c : (length (table_content c) ≤ 60)%nat.
Proof.
  unfold table_content. destruct (Nat.ltb_spec 60 (length c)); [|lia].
  rewrite length_app, length_take.
  change (length (py "...")) with 3%nat. lia.
Qed.

(** X21. What [_output_memories] prints. Under [--quiet] it prints the ids
    in order and nothing else, whatever [--json] and the scores, and
    nothing at all for no memory. Otherwise, without [--json], no memory
    gives the "No memories found." line, and a table has one row per
    memory whose content cell never exceeds 60 characters: a content of at
    most 60 characters is shown whole, a longer one as its first 57
    characters and three dots. *)
Theorem output_memories_table memories as_json scores :
  _output_memories memories as_json true scores
    = PrintedIds (_id <$> memories)
  ∧ _output_memories [] false false scores = PrintedNoMemories
  ∧ (memories ≠ [] →
     ∃ rows,
       _output_memories memories false false scores
         = PrintedTable (has_scores scores) rows
       ∧ length rows = length memories
       ∧ ∀ k m row,
           memories !! k = Some m → rows !! k = Some row →
           row_id row = _id m
           ∧ (length (row_content row) ≤ 60)%nat
           ∧ ((length (content m) ≤ 60)%nat → row_content row = content m)
           ∧ ((60 < length (content m))%nat →
              row_content row = take 57 (content m) ++ py "..."
              ∧ length (row_content row) = 60%nat)).
Proof.
  split; [done|]. split; [done|]. intros Hne.
  unfold _output_memories. destruct memories as [|m0 ms]; [done|].
  eexists. split; [done|]. split; [by rewrite length_fmap|].
  intros k m row Hm Hrow. rewrite list_lookup_fmap, Hm in Hrow.
  injection Hrow as <-. simpl. split; [done|].
  split; [apply table_content_length|]. unfold table_content. split.
  - intros Hle. destruct (Nat.ltb_spec 60 (length (content m))); [lia|done].
  - intros Hlt. destruct (Nat.ltb_spec 60 (length (content m))); [|lia].
    split; [done|]. rewrite length_app, length_take.
    change (length (py "...")) with 3%nat. lia.
Qed.

Lemma output_memories_table_witness :
  ∃ rows,
    _output_memories [probe; twin] false false None = PrintedTable false rows
    ∧ length rows = 2%nat.
Proof.
  destruct (output_memories_table [probe; twin] false None)
    as (_ & _ & H).
  destruct H as (rows & Hp & Hlen & _); [done|]. by exists rows.
Defined.

(** ** [get_db_path] *)

(** X22. The database path is resolved in the documented order: a
    non-empty [--db] wins over everything; else a non-empty
    [SQLER_CLI_DB]; else [--global] gives the global path whether or not a
    local directory exists; else the local path when [.sqler-cli] exists
    in the working directory; else the global path. An empty [--db] or
    [SQLER_CLI_DB] counts as absent. *)
Theorem get_db_path_priority resolve env c cs use_global override :
  get_db_path resolve env (Some (c :: cs)) use_global = resolve (c :: cs)
  ∧ get_db_path resolve env (Some []) use_global
    = get_db_path resolve env None use_global
  ∧ (env_SQLER_CLI_DB env = Some (c :: cs) →
     (override = None ∨ override = Some []) →
     get_db_path resolve env override use_global = resolve (c :: cs))
  ∧ (env_SQLER_CLI_DB env = None ∨ env_SQLER_CLI_DB env = Some [] →
     (override = None ∨ override = Some []) →
     get_db_path resolve env override use_global
     = if use_global || negb (env_has_local_db env)
       then env_global_db_path env else env_local_db_path env).
Proof.
  unfold get_db_path. split; [done|]. split; [done|]. split.
  - intros -> [->| ->]; done.
  - intros [->| ->] [->| ->]; by destruct use_global, (env_has_local_db env).
Qed.

Lemma get_db_path_priority_witness :
  get_db_path (λ p, p)
    (mkEnvironment (Some (py "/srv/mem.db")) true
       (py "/home/u/.sqler-cli/memory.db") (py "/w/.sqler-cli/memory.db"))
    (Some []) true
  = py "/srv/mem.db".
Proof.
  destruct (get_db_path_priority (λ p, p)
              (mkEnvironment (Some (py "/srv/mem.db")) true
                 (py "/home/u/.sqler-cli/memory.db")
                 (py "/w/.sqler-cli/memory.db"))
              47%N (py "srv/mem.db") true (Some [])) as (_ & _ & H & _).
  apply H; [reflexivity | by right].
Defined.

(** ** [export] and [import] *)

Lemma next_id_above (db : gmap Z Memory) i :
  is_Some (db !! i) → i < next_id db.
Proof.
  unfold next_id.
  enough (∀ i, is_Some (db !! i)
               → i ≤ map_fold (λ (i : Z) (_ : Memory) acc, Z.max i acc) 0 db)
    as H by (intros Hi; specialize (H i Hi); lia).
  apply (map_fold_weak_ind
           (λ r (m : gmap Z Memory), ∀ i, is_Some (m !! i) → i ≤ r)).
  - intros j [? Hj]. by rewrite lookup_empty in Hj.
  - intros j x m r _ IH k Hk. apply lookup_insert_is_Some in Hk as [->|[_ Hk]].
    + lia.
    + specialize (IH k Hk). lia.
Qed.

#[global] Instance id_le_total : Total id_le.
Proof. intros a b. unfold id_le. lia. Qed.

#[global] Instance id_le_trans : Transitive id_le.
Proof. intros a b c. unfold id_le. lia. Qed.

Lemma query_all_insert_above (db : gmap Z Memory) i m :
  (∀ j, is_Some (db !! j) → j < i) →
  query_all (<[i := m]> db) = query_all db ++ [m].
Proof.
  intros Habove. unfold query_all.
  assert (db !! i = None) as Hfresh.
  { apply eq_None_not_Some. intros Hi. specialize (Habove i Hi). lia. }
  assert (merge_sort id_le (map_to_list (<[i := m]> db))
          = merge_sort id_le (map_to_list db) ++ [(i, m)]) as ->.
  { apply (StronglySorted_unique_strong id_le).
    - intros x1 x2 H1 H2 H12 H21. unfold id_le in *.
      rewrite merge_sort_Permutation in H1.
      assert (x2 ∈ map_to_list (<[i := m]> db)) as H2'.
      { rewrite map_to_list_insert by done.
        apply elem_of_app in H2 as [H2|H2].
        - rewrite merge_sort_Permutation in H2. by right.
        - apply list_elem_of_singleton in H2 as ->. left. }
      destruct x1 as [k1 v1], x2 as [k2 v2]. simpl in *.
      assert (k1 = k2) as -> by lia.
      apply elem_of_map_to_list in H1, H2'. congruence.
    - apply (StronglySorted_merge_sort id_le).
    - apply StronglySorted_app_2.
      + intros x1 x2 H1 ->%list_elem_of_singleton.
        rewrite merge_sort_Permutation in H1. destruct x1 as [k1 v1].
        apply elem_of_map_to_list in H1. unfold id_le. simpl.
        assert (k1 < i) by (apply Habove; by eexists). lia.
      + apply (StronglySorted_merge_sort id_le).
      + repeat constructor.
    - rewrite !merge_sort_Permutation, map_to_list_insert by done.
      by rewrite Permutation_cons_append. }
  by rewrite fmap_app.
Qed.

Lemma export_memories_snoc db i m :
  (∀ j, is_Some (db !! j) → j < i) →
  export_memories (<[i := m]> db)
  = export_memories db
    ++ [mkExported (content m) (tags m) (context m) (source m)
          (session_id m) (supersedes m) (see_also m) (source_url m)
          (source_file m) (importance m) (created_at m) (updated_at m)].
Proof.
  intros Habove. unfold export_memories.
  by rewrite query_all_insert_above, fmap_app.
Qed.

Lemma import_item_spec now db it :
  import_item now db it
  = <[next_id db := imported (next_id db) now it]> db.
Proof. done. Qed.

Lemma import_exported_items (now : nat → datetime) es ks db :
  length ks = length es →
  let db' :=
    foldl (λ db kit, import_item (now kit.1) db kit.2) db
          (zip ks (item_of_exported <$> es)) in
  item_of_exported <$> export_memories db'
  = (item_of_exported <$> export_memories db) ++ (item_of_exported <$> es)
  ∧ (∀ i m, db !! i = Some m → db' !! i = Some m)
  ∧ size db' = (size db + length es)%nat.
Proof.
  revert ks db. induction es as [|e es IH]; intros ks db Hlen; cbv zeta.
  - destruct ks; [|done]. simpl. rewrite app_nil_r. split; [done|]. split; [done|]. lia.
  - destruct ks as [|k ks]; [done|]. injection Hlen as Hlen.
    cbn [fmap list_fmap zip zip_with foldl fst snd].
    destruct (IH ks (import_item (now k) db (item_of_exported e)) Hlen)
      as (Hex & Hframe & Hsize).
    cbv zeta in Hex, Hframe, Hsize. rewrite Hex, Hsize.
    rewrite import_item_spec.
    assert (db !! next_id db = None) as Hfresh.
    { apply eq_None_not_Some. intros Hi%next_id_above. lia. }
    split; [|split].
    + rewrite export_memories_snoc by apply next_id_above.
      rewrite fmap_app, <- app_assoc. by destruct e.
    + intros i m Him. apply Hframe. rewrite import_item_spec.
      rewrite lookup_insert_ne; [done|]. intros <-. congruence.
    + rewrite map_size_insert_None by done. simpl. lia.
Qed.

(** X23. Importing the file that [export] wrote from one database into
    another: a second export then lists the records the target had,
    followed by one record for each exported memory, in the exported
    order, each with its content, tags, context, source, session, links,
    provenance and importance as exported. The ids and the two dates are
    given anew by the store and are not compared. No record the target
    had is changed, whatever ids the exported memories had, and the number
    of records is the sum of the two. *)
Theorem export_import_round_trip (now : nat → datetime) source_db db :
  let db' :=
    import_memories now (item_of_exported <$> export_memories source_db) db in
  item_of_exported <$> export_memories db'
  = (item_of_exported <$> export_memories db)
    ++ (item_of_exported <$> export_memories source_db)
  ∧ (∀ i m, db !! i = Some m → db' !! i = Some m)
  ∧ size db' = (size db + size source_db)%nat.
Proof.
  intros db'. subst db'. unfold import_memories.
  destruct (import_exported_items now (export_memories source_db)
              (seq 1 (length (item_of_exported <$> export_memories source_db)))
              db) as (Hex & Hframe & Hsize).
  { by rewrite length_seq, length_fmap. }
  cbv zeta in *. split; [done|]. split; [done|].
  rewrite Hsize. unfold export_memories.
  by rewrite length_fmap, query_all_length.
Qed.

(** ** More on the oracle and on the run *)

Lemma scan_results_same_id m1 m2 limit threshold results similar :
  _id m1 = _id m2 →
  scan_results m1 limit threshold results similar
  = scan_results m2 limit threshold results similar.
Proof.
  intros Hid. revert similar.
  induction results as [|r rest IH]; intros similar; simpl; [done|].
  rewrite Hid. destruct (_id (model r) =? _id m2); [apply IH|].
  destruct (limit <=? _); [done | apply IH].
Qed.

(** X24. The oracle reads nothing of the probe but its id and the first
    ten tokens of its content: two probes that agree on those get the same
    answer and issue the same search. *)
Theorem find_similar_first_ten_tokens search m1 m2 limit threshold :
  _id m1 = _id m2 →
  take 10 (split (content m1)) = take 10 (split (content m2)) →
  _find_similar search m1 limit threshold
  = _find_similar search m2 limit threshold.
Proof.
  intros Hid Hw. unfold _find_similar. rewrite Hw.
  destruct (take 10 (split (content m2))); [done|].
  destruct (search _ _); [|done].
  by rewrite (scan_results_same_id m1 m2).
Qed.

Lemma find_similar_first_ten_tokens_witness :
  _find_similar search_twin
    (note 1 "a b c d e f g h i j k" [] 1%N) 3 (-5 # 1)
  = _find_similar search_twin
      (note 1 "a b c d e f g h i j and more" ["t"] 2%N) 3 (-5 # 1).
Proof.
  apply find_similar_first_ten_tokens; [reflexivity | by vm_compute].
Defined.

Lemma prompts_nil_of (l : list event) :
  Forall (λ e, is_prompt e = false) l → prompts l = [].
Proof.
  unfold prompts. induction 1 as [|e l He _ IH]; [done|].
  rewrite filter_cons_False; [done | congruence].
Qed.

Lemma prompts_app l1 l2 : prompts (l1 ++ l2) = prompts l1 ++ prompts l2.
Proof. apply filter_app. Qed.

Lemma prompts_process_group confirm now dry_run auto quiet p i group :
  prompts (log (process_group confirm now dry_run auto quiet p (i, group)))
  = prompts (log p)
    ++ (if dry_run || auto || quiet then [] else [Confirm i]).
Proof.
  assert (prompts (show_group quiet i group) = []) as Hshow.
  { apply prompts_nil_of. unfold show_group. destruct quiet; [constructor|].
    constructor; [done|]. apply Forall_app. split; [|by repeat constructor].
    apply Forall_fmap. by apply Forall_true. }
  assert (∀ t d, prompts (merge_group t group d).1.1.2 = []) as Hmerge.
  { intros t d. apply prompts_nil_of. unfold merge_group.
    destruct (sort_newest_first group); [constructor|]. simpl.
    constructor; [done|]. apply Forall_fmap. by apply Forall_true. }
  unfold process_group. destruct dry_run; simpl.
  { by rewrite prompts_app, Hshow, app_nil_r. }
  assert (prompts (if negb auto && negb quiet then [Confirm i] else [])
          = if auto || quiet then [] else [Confirm i]) as Hask.
  { by destruct auto, quiet. }
  destruct (should_merge confirm auto quiet i).
  - specialize (Hmerge (now i) (db_now p)).
    destruct (merge_group (now i) group (db_now p)) as [[[db' evs] k] n].
    simpl in *. rewrite !prompts_app, Hshow, Hask, Hmerge. simpl.
    assert (prompts match k with
                    | Some keeper =>
                        if quiet then []
                        else [Echo (MergedInto (_id keeper)
                                      (length group - 1))]
                    | None => []
                    end = []) as ->.
    { by destruct k as [k|]; [destruct quiet|]. }
    by rewrite !app_nil_r.
  - simpl. by rewrite !prompts_app, Hshow, Hask.
Qed.

Lemma prompts_process_groups confirm now dry_run auto quiet igs p :
  prompts (log (foldl (process_group confirm now dry_run auto quiet) p igs))
  = prompts (log p)
    ++ (if dry_run || auto || quiet then []
        else (λ i, Confirm i) <$> igs.*1).
Proof.
  revert p. induction igs as [|[i g] igs IH]; intros p; cbn [foldl].
  - simpl. destruct (dry_run || auto || quiet); by rewrite app_nil_r.
  - rewrite IH, prompts_process_group, <- app_assoc. f_equal.
    by destruct (dry_run || auto || quiet).
Qed.

(** X25. [dedupe] never asks under [--dry-run], [--auto] or [--quiet];
    otherwise it asks exactly once for each group it found, in order,
    whatever the answers. *)
Theorem dedupe_prompts
    search confirm now dry_run auto threshold quiet db :
  let r := dedupe search confirm now dry_run auto threshold quiet db in
  prompts (trace r)
  = if dry_run || auto || quiet then []
    else (λ i, Confirm i) <$> seq 1 (length (groups_found r)).
Proof.
  intros r. subst r. unfold dedupe.
  destruct (length (query_all db) <? 2)%nat.
  { simpl. destruct quiet, (dry_run || auto); by simpl;
      rewrite ?orb_true_r. }
  pose proof (build_groups_searches (search db) threshold (query_all db))
    as Hq.
  set (b := build_groups (search db) threshold (query_all db)) in *.
  assert (prompts (searches b) = []) as Hs.
  { apply prompts_nil_of. eapply Forall_impl; [exact Hq|]. by intros []. }
  destruct (duplicate_groups b) as [|g0 groups] eqn:Hb; cbn [trace groups_found].
  { rewrite prompts_app, Hs. simpl.
    destruct quiet, (dry_run || auto); by simpl; rewrite ?orb_true_r. }
  rewrite prompts_app, prompts_process_groups. cbn [log].
  rewrite prompts_app, Hs.
  assert (∀ n, prompts (if quiet then [] else [Echo (Found n)]) = []) as ->
    by (by destruct quiet).
  assert (∀ n, prompts (if negb quiet && negb dry_run
                        then [Echo (MergedTotal n)] else []) = []) as ->
    by (by destruct (negb quiet && negb dry_run)).
  rewrite app_nil_r. simpl "++".
  destruct (dry_run || auto || quiet); [done|].
  unfold enumerate1. by rewrite fst_zip by (by rewrite length_seq).
Qed.

(** ** The records a run deletes *)

Lemma find_similar_from_results search memory limit threshold p :
  p ∈ (_find_similar search memory limit threshold).1 →
  ∃ query lim results r,
    search query lim = Returned results ∧ r ∈ results ∧ model r = p.1.
Proof.
  destruct (decide (split (content memory) = [])) as [He|Hne].
  { apply take_split_nil in He. unfold _find_similar. rewrite He.
    by intros ?%elem_of_nil. }
  rewrite find_similar_tokens by done. cbv zeta. simpl.
  destruct (search _ _) as [results|e] eqn:Hs;
    [|by intros ?%elem_of_nil].
  intros Hp.
  assert (Forall (λ p, ∃ r, r ∈ results ∧ model r = p.1)
            (scan_results memory limit threshold results [])) as Hall.
  { apply scan_results_Forall; [|done]. intros r Hr _ _. by exists r. }
  rewrite Forall_forall in Hall. destruct (Hall p Hp) as (r & Hr & Hm).
  by eexists _, _, results, r.
Qed.

Lemma foldl_delete_dom rest (db : gmap Z Memory) :
  dom (foldl (λ db mem, delete_memory mem db) db rest)
  = dom db ∖ list_to_set (_id <$> rest).
Proof.
  apply set_eq. intros x.
  rewrite elem_of_difference, !elem_of_dom, foldl_delete_lookup.
  rewrite elem_of_list_to_set.
  destruct (decide (x ∈ _id <$> rest)) as [Hin|Hout].
  - split; [by intros [? ?] | by intros [_ ?]].
  - split; [done | by intros [? _]].
Qed.

(** A merge of stored records with distinct ids removes all but one. *)
Lemma merge_group_size now group (db : gmap Z Memory) :
  NoDup (_id <$> group) →
  group ≠ [] →
  (∀ m, m ∈ group → is_Some (db !! _id m)) →
  Z.of_nat (size db)
  = Z.of_nat (size (merge_group now group db).1.1.1)
    + (Z.of_nat (length group) - 1).
Proof.
  intros Hnd Hne Hin.
  destruct (sort_newest_first group) as [|keeper rest] eqn:Hs.
  { by apply sort_newest_first_nil in Hs. }
  rewrite (merge_group_sorted _ _ _ _ _ Hs). cbn [fst].
  assert (keeper :: rest ≡ₚ group) as Hperm
    by (rewrite <- Hs; apply sort_newest_first_perm).
  assert (NoDup (_id <$> (keeper :: rest))) as Hnd' by (by rewrite Hperm).
  rewrite fmap_cons in Hnd'. apply NoDup_cons in Hnd' as [Hk Hr].
  rewrite <- !size_dom, foldl_delete_dom, dom_insert_L.
  assert (_id keeper ∈ dom db) as Hkd.
  { apply elem_of_dom, Hin. rewrite <- Hperm. by left. }
  assert (list_to_set (_id <$> rest) ⊆ dom db) as Hsub.
  { intros x [m [-> Hm]]%elem_of_list_to_set%list_elem_of_fmap.
    apply elem_of_dom, Hin. rewrite <- Hperm. by right. }
  replace ({[_id keeper]} ∪ dom db) with (dom db) by set_solver.
  assert (size (dom db)
          = (size (dom db ∖ list_to_set (_id <$> rest))
             + length rest)%nat) as Hsize.
  { rewrite (size_difference (dom db) (list_to_set (_id <$> rest)))
      by done.
    rewrite size_list_to_set, length_fmap by done.
    pose proof (subseteq_size _ _ Hsub) as Hle.
    rewrite size_list_to_set, length_fmap in Hle by done. lia. }
  apply Permutation_length in Hperm. simpl in Hperm. lia.
Qed.

Lemma process_groups_size confirm now dry_run auto quiet igs p :
  NoDup (group_ids igs.*2) →
  (∀ ig, ig ∈ igs →
         ig.2 ≠ [] ∧ ∀ m, m ∈ ig.2 → is_Some (db_now p !! _id m)) →
  let p' := foldl (process_group confirm now dry_run auto quiet) p igs in
  Z.of_nat (size (db_now p)) + merged_count p
  = Z.of_nat (size (db_now p')) + merged_count p'.
Proof.
  revert p. induction igs as [|[i g] igs IH]; intros p Hnd Hin;
    cbn [foldl]; [done|].
  rewrite fmap_cons, group_ids_cons in Hnd. cbn [snd] in Hnd.
  apply NoDup_app in Hnd as (Hg & Hdisj & Hrest).
  destruct (Hin (i, g)) as [Hne Hstored]; [by left|]. cbn [snd] in *.
  set (p1 := process_group confirm now dry_run auto quiet p (i, g)).
  assert (Z.of_nat (size (db_now p)) + merged_count p
          = Z.of_nat (size (db_now p1)) + merged_count p1) as Hstep.
  { subst p1. destruct dry_run; [done|].
    destruct (should_merge confirm auto quiet i) eqn:Hm.
    - destruct (process_group_merged confirm now auto quiet p i g Hm)
        as [-> ->].
      rewrite (merge_group_size (now i) g (db_now p)) by done. lia.
    - unfold process_group. by rewrite Hm. }
  cbv zeta. rewrite Hstep. apply IH; [done|].
  intros [j g'] Hig. destruct (Hin (j, g')) as [Hne' Hst']; [by right|].
  split; [done|]. intros m Hm. cbn [snd] in *. subst p1.
  rewrite process_group_frame; [by apply Hst'|].
  intros Hx. apply (Hdisj _ Hx). apply elem_of_group_ids. exists g'.
  split; [|by apply list_elem_of_fmap_2].
  apply list_elem_of_fmap. by exists (j, g').
Qed.

(** X26. On a database whose records carry their own ids and whose ranked
    search only answers with stored records, [dedupe] removes exactly as
    many records as it reports merged: the database shrinks by the merged
    count. *)
Theorem dedupe_size
    search confirm now dry_run auto threshold quiet db :
  consistent db →
  answers_from db (search db) →
  let r := dedupe search confirm now dry_run auto threshold quiet db in
  Z.of_nat (size db) = Z.of_nat (size (final_db r)) + total_merged r.
Proof.
  intros Hc Hans r. subst r. unfold dedupe.
  destruct (length (query_all db) <? 2)%nat; [simpl; lia|].
  pose proof (build_groups_invariant (search db) threshold (query_all db))
    as [Hsize Hnd _].
  pose proof (foldl_group_step_single_hop (search db) threshold
                (query_all db) (query_all db) builder_init
                (λ _ H, H) (Forall_nil_2 _)) as Hhop.
  fold (build_groups (search db) threshold (query_all db)) in Hhop.
  set (b := build_groups (search db) threshold (query_all db)) in *.
  destruct (duplicate_groups b) as [|g0 groups] eqn:Hb; [simpl; lia|].
  cbn [final_db total_merged].
  set (p0 := mkProgress db _ 0).
  pose proof (process_groups_size confirm now dry_run auto quiet
                (enumerate1 (g0 :: groups)) p0) as Hfold.
  cbv zeta in Hfold. rewrite <- Hfold; [subst p0; simpl; lia | |].
  - by rewrite enumerate1_snd.
  - intros [i g] Hig.
    assert (g ∈ g0 :: groups) as Hg.
    { rewrite <- (enumerate1_snd (g0 :: groups)).
      apply list_elem_of_fmap. by exists (i, g). }
    cbn [snd]. split.
    + rewrite Forall_forall in Hsize. specialize (Hsize g Hg).
      intros ->. simpl in Hsize. lia.
    + rewrite Forall_forall in Hhop.
      destruct (Hhop g Hg) as (seed & nbs & -> & Hseed & _ & Hnbs).
      subst p0. cbn [db_now].
      intros m [->|Hm]%elem_of_cons.
      * apply elem_of_query_all in Hseed as [j Hj].
        by rewrite (Hc _ _ Hj), Hj.
      * destruct (Hnbs m Hm) as [sc Hsc].
        apply find_similar_from_results in Hsc
          as (q & lim & results & r' & Hs & Hr & Hmr).
        simpl in Hmr. subst m. by eapply Hans.
Qed.

Lemma sample_search_answers_from :
  answers_from sample_db (sample_search sample_db).
Proof.
  intros query limit results r [= <-] Hr.
  apply (λ H, elem_of_sublist _ _ _ H (sublist_take _ _)) in Hr.
  rewrite !elem_of_cons, elem_of_nil in Hr.
  destruct Hr as [->|[->|[]]]; by eexists.
Defined.

Lemma dedupe_size_witness :
  let r := dedupe sample_search (λ _, false) (λ _, 99%N) false true
                  (-3 # 1) false sample_db in
  size (final_db r) = 2%nat ∧ total_merged r = 1.
Proof.
  intros r.
  pose proof (dedupe_size sample_search (λ _, false) (λ _, 99%N) false true
                (-3 # 1) false sample_db sample_db_consistent
                sample_search_answers_from) as H.
  cbv zeta in H. fold r in H.
  assert (total_merged r = 1) as Hn by (by vm_compute).
  split; [|exact Hn]. rewrite Hn in H.
  change (size sample_db) with 3%nat in H. lia.
Defined.
